(** * LinkedList.h: a singly linked list owned through [std::unique_ptr]

    A shallow embedding of [LinkedList<T>] (src/LinkedList.h) and the
    properties of its specification.

    The program is modelled at the level of its heap: a node lives at a
    location, a [std::unique_ptr<Node>] or a raw [Node*] is an optional
    location ([None] is [nullptr]), and every member function is a computation
    over the heap and the standard output stream.  Three things can happen to
    a computation besides returning: it throws (only [std::out_of_range]
    exists in this code), it dereferences a pointer to nothing, or it exhausts
    one of its two budgets: the depth of nested [~Node()] calls (the call
    stack of a cascading destruction) and the number of iterations granted to
    a [while] loop.  Allocation never fails (the specification leaves
    [std::bad_alloc] out). *)

From Stdlib Require Import Ascii String.
From stdpp Require Import gmap strings list fin_maps pretty.

(** ** Data model *)

(** The address of a heap-allocated node. *)
Abbreviation loc := positive.

(** [struct Node { T element; std::unique_ptr<Node> ptrNext; }] *)
Record Node (T : Type) : Type := mkNode {
  element : T;
  ptrNext : option loc
}.
Arguments mkNode {T} _ _.
Arguments element {T} _.
Arguments ptrNext {T} _.

(** [class LinkedList { std::unique_ptr<Node> ptrHead; }]: the object itself
    holds nothing but the head link. *)
Record LinkedList : Type := mkList {
  ptrHead : option loc
}.

(** The part of the machine the list can touch: the free store and
    [std::cout] (the node destructor writes to it). *)
Record World (T : Type) : Type := mkWorld {
  heap : gmap loc (Node T);
  cout : string
}.
Arguments mkWorld {T} _ _.
Arguments heap {T} _.
Arguments cout {T} _.

(** [std::out_of_range] is the only exception type of the program. *)
Inductive exn : Type :=
  | out_of_range (what : string).

Inductive fault : Type :=
  | UndefinedBehaviour   (* a null or dangling pointer is dereferenced *)
  | StackOverflow        (* destructors nest deeper than the stack allows *)
  | OutOfFuel.           (* a loop was granted too few iterations *)

Inductive outcome (T A : Type) : Type :=
  | Normal (a : A) (w : World T)
  | Raised (e : exn) (w : World T)
  | Fault (f : fault).
Arguments Normal {T A} _ _.
Arguments Raised {T A} _ _.
Arguments Fault {T A} _.

(** ** The monad of member functions *)

Definition M (T A : Type) : Type := World T -> outcome T A.

Definition ret {T A} (a : A) : M T A := fun w => Normal a w.

Definition bind {T A B} (m : M T A) (k : A -> M T B) : M T B :=
  fun w =>
    match m w with
    | Normal a w' => k a w'
    | Raised e w' => Raised e w'
    | Fault f => Fault f
    end.

Definition throw {T A} (e : exn) : M T A := fun w => Raised e w.

Definition crash {T A} (f : fault) : M T A := fun _ => Fault f.

Declare Scope cpp_scope.
Delimit Scope cpp_scope with cpp.
Notation "'let*' x ':=' c 'in' k" := (bind c (fun x => k))
  (at level 10, x name, c at level 100, k at level 200) : cpp_scope.
Notation "c '>>' k" := (bind c (fun _ => k))
  (at level 100, k at level 200, right associativity) : cpp_scope.
Open Scope cpp_scope.

(** [os << x] for the element type: the one thing the template asks of [T]. *)
Class Insertable (T : Type) := insert_to : T -> string.

(** [std::endl], as the characters it puts on the stream. *)
Definition endl : string := String "010"%char EmptyString.

(** The element type of the driver's [LinkedList<int>].  The list copies
    and prints its elements and never computes with them, so no
    arithmetic, and no wrap-around, enters the model. *)
Definition int := Z.

(** [operator<<(std::ostream&, int)]: decimal digits, a minus sign when
    negative. *)
#[global] Instance int_insertable : Insertable int := fun i => pretty (i : Z).

Section Primitives.
Context {T : Type}.

(** [*p]: reading the node a pointer designates. *)
Definition load (l : loc) : M T (Node T) := fun w =>
  match heap w !! l with
  | Some n => Normal n w
  | None => Fault UndefinedBehaviour
  end.

(** Writing a node in place. *)
Definition store (l : loc) (n : Node T) : M T unit := fun w =>
  match heap w !! l with
  | Some _ => Normal tt (mkWorld (<[l := n]> (heap w)) (cout w))
  | None => Fault UndefinedBehaviour
  end.

(** Returning a node's memory to the free store. *)
Definition free (l : loc) : M T unit := fun w =>
  match heap w !! l with
  | Some _ => Normal tt (mkWorld (delete l (heap w)) (cout w))
  | None => Fault UndefinedBehaviour
  end.

(** [std::cout << s] *)
Definition write_cout (s : string) : M T unit := fun w =>
  Normal tt (mkWorld (heap w) (cout w +:+ s)).

(** [std::make_unique<Node>(data)]: a node at an address not in use,
    built by [Node(const T& data) : element{data}, ptrNext{nullptr}]. *)
Definition make_unique (data : T) : M T loc := fun w =>
  let l := fresh (dom (heap w)) in
  Normal l (mkWorld (<[l := mkNode data None]> (heap w)) (cout w)).

(** [u.release()] on the [ptrNext] member of the node at [l]: the member
    becomes null and the pointer it held is handed out. *)
Definition release_ptrNext (l : loc) : M T (option loc) :=
  let* n := load l in
  store l (mkNode (element n) None) >>
  ret (ptrNext n).
End Primitives.

Section Destruction.
Context {T : Type} `{Insertable T}.

(** [delete l]: the destructor body of [~Node()] prints its line, then the
    members are destroyed, [ptrNext] first, whose own destructor deletes
    the node it still owns; only then is the memory freed.  Every nested
    [~Node()] takes one unit of [stack]. *)
Fixpoint delete_node (stack : nat) (l : loc) : M T unit :=
  match stack with
  | O => crash StackOverflow
  | S stack' =>
      let* n := load l in
      write_cout ("Destroying Node with data " +:+ insert_to (element n) +:+ endl) >>
      match ptrNext n with
      | Some next => delete_node stack' next
      | None => ret tt
      end >>
      free l
  end.

(** The deleter call at the end of [unique_ptr::reset(p)], and
    [~unique_ptr()]: the pointer held before, when it is not null, is
    deleted. *)
Definition dispose (stack : nat) (old : option loc) : M T unit :=
  match old with
  | Some l => delete_node stack l
  | None => ret tt
  end.

(** [l->ptrNext = std::move(src)], with [p] the pointer [src] gives up:
    [reset(src.release())] stores [p] and disposes of the old value. *)
Definition assign_ptrNext (stack : nat) (l : loc) (p : option loc) : M T unit :=
  let* n := load l in
  store l (mkNode (element n) p) >>
  dispose stack (ptrNext n).
End Destruction.

(** ** The member functions of [LinkedList<T>] *)

Section Members.
Context {T : Type} `{Insertable T}.

(** [LinkedList() : ptrHead{nullptr} {}] *)
Definition LinkedList_default : LinkedList := mkList None.

(** [void push(const T& data)] *)
Definition push (stack : nat) (data : T) (this : LinkedList) : M T LinkedList :=
  (* std::unique_ptr<Node> ptrTemp{std::make_unique<Node>(data)}; *)
  let* ptrTemp := make_unique data in
  (* ptrTemp->ptrNext = std::move(ptrHead);   ptrHead is null from here *)
  assign_ptrNext stack ptrTemp (ptrHead this) >>
  (* ptrHead = std::move(ptrTemp);   the value reset() replaces is that null *)
  dispose stack None >>
  ret (mkList (Some ptrTemp)).

(** [void pop()] *)
Definition pop (stack : nat) (this : LinkedList) : M T LinkedList :=
  match ptrHead this with
  | None => ret this
  | Some head =>
      (* ptrHead = std::move(ptrHead->ptrNext);
         reset(u.release()): the new pointer is stored, the old head deleted *)
      let* next := release_ptrNext head in
      dispose stack (Some head) >>
      ret (mkList next)
  end.

(** [T peek() const] *)
Definition peek (this : LinkedList) : M T T :=
  match ptrHead this with
  | None =>
      throw (out_of_range "Empty list: Attempt to dereference a NULL pointer")
  | Some head =>
      let* n := load head in
      ret (element n)
  end.

(** [void clean()]: one unit of [fuel] for each turn of the loop. *)
Fixpoint clean (stack fuel : nat) (this : LinkedList) : M T LinkedList :=
  match ptrHead this with
  | None => ret this
  | Some head =>
      match fuel with
      | O => crash OutOfFuel
      | S fuel' =>
          (* ptrHead = std::move(ptrHead->ptrNext); *)
          let* next := release_ptrNext head in
          dispose stack (Some head) >>
          clean stack fuel' (mkList next)
      end
  end.

(** The loop of [print]: [ptrCursor] walks the chain, [os] collects. *)
Fixpoint print_loop (fuel : nat) (ptrCursor : option loc) (os : string)
  : M T string :=
  match ptrCursor with
  | None => ret os
  | Some cursor =>
      match fuel with
      | O => crash OutOfFuel
      | S fuel' =>
          let* n := load cursor in
          (* os << ptrCursor->element << " -> "; *)
          let os := os +:+ insert_to (element n) +:+ " -> " in
          (* ptrCursor = ptrCursor->ptrNext.get(); *)
          print_loop fuel' (ptrNext n) os
      end
  end.

(** [void print(std::ostream& os) const]: the stream is passed in and the
    stream with the text appended is returned. *)
Definition print (fuel : nat) (this : LinkedList) (os : string) : M T string :=
  let* os := print_loop fuel (ptrHead this) os in
  ret (os +:+ "NULL" +:+ endl).

(** [operator<<(std::ostream& os, const LinkedList<T>& list)] *)
Definition put_list (fuel : nat) (os : string) (list : LinkedList) : M T string :=
  print fuel list os.

(** The loop of the copy constructor over its three locals. *)
Fixpoint copy_loop (stack fuel : nat)
    (ptrNewHead ptrCurrNode ptrCursor : option loc) : M T (option loc) :=
  match ptrCursor with
  | None => ret ptrNewHead
  | Some cursor =>
      match fuel with
      | O => crash OutOfFuel
      | S fuel' =>
          let* src := load cursor in
          let* ptrTemp := make_unique (element src) in
          let* locals :=
            match ptrNewHead with
            | None =>
                (* ptrNewHead = std::move(ptrTemp);
                   ptrCurrNode = ptrNewHead.get(); *)
                dispose stack None >>
                ret (Some ptrTemp, Some ptrTemp)
            | Some _ =>
                match ptrCurrNode with
                | None => crash UndefinedBehaviour
                | Some curr =>
                    (* ptrCurrNode->ptrNext = std::move(ptrTemp);
                       ptrCurrNode = ptrCurrNode->ptrNext.get(); *)
                    assign_ptrNext stack curr (Some ptrTemp) >>
                    let* n := load curr in
                    ret (ptrNewHead, ptrNext n)
                end
            end in
          (* ptrCursor = ptrCursor->ptrNext.get(); *)
          let* src := load cursor in
          copy_loop stack fuel' (fst locals) (snd locals) (ptrNext src)
      end
  end.

(** [LinkedList(LinkedList& list)]: returns the new object and the
    argument object as the constructor leaves it. *)
Definition LinkedList_copy (stack fuel : nat) (list : LinkedList)
  : M T (LinkedList * LinkedList) :=
  let* ptrNewHead := copy_loop stack fuel None None (ptrHead list) in
  (* ptrHead = std::move(ptrNewHead);   this->ptrHead was null *)
  dispose stack None >>
  ret (mkList ptrNewHead, list).

(** [LinkedList(LinkedList&& list)]: [ptrHead = std::move(list.ptrHead)]
    takes the pointer out of [list], which is left null. *)
Definition LinkedList_move (stack : nat) (list : LinkedList)
  : M T (LinkedList * LinkedList) :=
  dispose stack None >>
  ret (mkList (ptrHead list), mkList None).

(** [~LinkedList() { clean(); }] *)
Definition LinkedList_destroy (stack fuel : nat) (this : LinkedList) : M T unit :=
  let* this := clean stack fuel this in
  dispose stack (ptrHead this).

(** ** Callers: the sequences of calls the specification speaks of *)

(** [for (v : vs) list.push(v);] *)
Fixpoint push_all (stack : nat) (vs : list T) (this : LinkedList)
  : M T LinkedList :=
  match vs with
  | [] => ret this
  | v :: vs' =>
      let* this := push stack v this in
      push_all stack vs' this
  end.

(** [n] calls of [pop()] in a row. *)
Fixpoint pop_n (stack n : nat) (this : LinkedList) : M T LinkedList :=
  match n with
  | O => ret this
  | S n' =>
      let* this := pop stack this in
      pop_n stack n' this
  end.

(** A caller's mutation of a list through its public interface. *)
Inductive mutation : Type :=
  | Push (v : T)
  | Pop.

Definition mutate (stack : nat) (m : mutation) (this : LinkedList)
  : M T LinkedList :=
  match m with
  | Push v => push stack v this
  | Pop => pop stack this
  end.

Fixpoint mutate_all (stack : nat) (ms : list mutation) (this : LinkedList)
  : M T LinkedList :=
  match ms with
  | [] => ret this
  | m :: ms' =>
      let* this := mutate stack m this in
      mutate_all stack ms' this
  end.
End Members.

Arguments mutation : clear implicits.

(** ** What a list holds: the chain of nodes behind a pointer *)

(** [chain h p ns]: following [ptrNext] from [p] in the heap [h] visits
    exactly the nodes [ns] (address and element, head first) and ends at
    [nullptr]. *)
Fixpoint chain {T} (h : gmap loc (Node T)) (p : option loc)
    (ns : list (loc * T)) : Prop :=
  match ns with
  | [] => p = None
  | n :: ns' =>
      p = Some n.1 ∧
      ∃ next, h !! n.1 = Some (mkNode n.2 next) ∧ chain h next ns'
  end.

(** The heap once the nodes at [ls] are gone. *)
Definition released {T} (ls : list loc) (h : gmap loc (Node T))
  : gmap loc (Node T) :=
  foldr delete h ls.

(** The lines [~Node()] writes for the elements [vs], in that order. *)
Fixpoint destroy_log {T} `{Insertable T} (vs : list T) : string :=
  match vs with
  | [] => ""
  | v :: vs' =>
      "Destroying Node with data " +:+ insert_to v +:+ endl +:+ destroy_log vs'
  end.

(** The text [print] writes for the elements [vs] before the end marker. *)
Fixpoint arrows {T} `{Insertable T} (vs : list T) : string :=
  match vs with
  | [] => ""
  | v :: vs' => insert_to v +:+ " -> " +:+ arrows vs'
  end.

(** The element sequence after a caller's mutations, on plain lists. *)
Definition mutated {T} (vs : list T) (m : mutation T) : list T :=
  match m with
  | Push v => v :: vs
  | Pop => tail vs
  end.

(** [m] cannot end in an exception, whatever the state it starts from. *)
Definition never_raises {T A} (m : M T A) : Prop :=
  ∀ w e w', m w ≠ Raised e w'.

(** ** The driver (main.cpp) *)

(** [try { body } catch (out_of_range& e) { handler }]: the only exception
    type there is, so the handler takes whatever is thrown. *)
Definition try_catch {T A} (body : M T A) (handler : exn → M T A) : M T A :=
  fun w =>
    match body w with
    | Normal a w' => Normal a w'
    | Raised e w' => handler e w'
    | Fault f => Fault f
    end.

(** [e.what()] *)
Definition what (e : exn) : string :=
  match e with
  | out_of_range s => s
  end.

(** [list.print(std::cout)], and [std::cout << list]: [print] on the
    stream that is part of the state. *)
Definition print_cout {T} `{Insertable T} (fuel : nat) (list : LinkedList)
  : M T unit :=
  fun w =>
    match print fuel list (cout w) w with
    | Normal os w' => Normal tt (mkWorld (heap w') os)
    | Raised e w' => Raised e w'
    | Fault f => Fault f
    end.

(** [for (int i = ...; i < bound; ++i) list.push(i);] *)
Fixpoint for_push (stack fuel : nat) (i bound : int) (list : LinkedList)
  : M int LinkedList :=
  if (i <? bound)%Z then
    match fuel with
    | O => crash OutOfFuel
    | S fuel' =>
        let* list := push stack i list in
        for_push stack fuel' (i + 1)%Z bound list
    end
  else ret list.

(** [int main(int argc, char** argv)], its arguments unused.  The operands
    of a chain of [<<] are evaluated and written from left to right.  At
    [return 0] the two lists are destroyed, [list2] first. *)
Definition main (stack fuel : nat) : M int int :=
  (* LinkedList<int> list; *)
  let list := LinkedList_default in
  write_cout "Allocating Nodes... " >>
  let* list := for_push stack fuel 0%Z 10%Z list in
  write_cout ("done!" +:+ endl) >>
  write_cout ("The list now contains: " +:+ endl) >>
  (* cout << list << endl; *)
  print_cout fuel list >>
  write_cout endl >>
  let* list := pop stack list in
  let* list := pop stack list in
  let* list := pop stack list in
  write_cout ("After 3 pop()'s" +:+ endl) >>
  (* list.print(cout); *)
  print_cout fuel list >>
  write_cout ("Creating list2 as copy of list using copy  ..." +:+ endl) >>
  (* LinkedList<int> list2 = std::move(list); *)
  let* lists := LinkedList_move stack list in
  let list2 := fst lists in
  let list := snd lists in
  write_cout ("After copying, list is: " +:+ endl) >>
  print_cout fuel list >>
  write_cout endl >>
  write_cout ("and list2 is:" +:+ endl) >>
  print_cout fuel list2 >>
  write_cout endl >>
  let* list2 := pop stack list2 in
  let* list2 := pop stack list2 in
  let* list2 := pop stack list2 in
  write_cout ("After 3 pop()'s list 2 is:" +:+ endl) >>
  print_cout fuel list2 >>
  write_cout endl >>
  (* cout << "peek() on list 2 returns: " << list2.peek() << endl; *)
  write_cout "peek() on list 2 returns: " >>
  let* v := peek list2 in
  write_cout (insert_to v) >>
  write_cout endl >>
  write_cout "... Another peek() on list2 returns: " >>
  let* v := peek list2 in
  write_cout (insert_to v) >>
  write_cout endl >>
  let* list := clean stack fuel list in
  try_catch
    (write_cout "peek() on list returns: " >>
     let* v := peek list in
     write_cout (insert_to v) >>
     write_cout endl)
    (fun e =>
       write_cout (endl +:+ "EXCEPTION: ") >>
       write_cout (what e) >>
       write_cout endl) >>
  write_cout ("Now after cleaning the list2..." +:+ endl) >>
  let* list2 := clean stack fuel list2 in
  print_cout fuel list2 >>
  write_cout endl >>
  (* return 0; *)
  LinkedList_destroy stack fuel list2 >>
  LinkedList_destroy stack fuel list >>
  ret 0%Z.

(** Lines of text, each ended as [std::endl] ends it. *)
Fixpoint unlines (ls : list string) : string :=
  match ls with
  | [] => ""
  | l :: ls' => l +:+ endl +:+ unlines ls'
  end.

(** What a run of the driver writes to [std::cout]. *)
Definition main_transcript : string :=
  unlines [
    "Allocating Nodes... done!";
    "The list now contains: ";
    "9 -> 8 -> 7 -> 6 -> 5 -> 4 -> 3 -> 2 -> 1 -> 0 -> NULL";
    "";
    "Destroying Node with data 9";
    "Destroying Node with data 8";
    "Destroying Node with data 7";
    "After 3 pop()'s";
    "6 -> 5 -> 4 -> 3 -> 2 -> 1 -> 0 -> NULL";
    "Creating list2 as copy of list using copy  ...";
    "After copying, list is: ";
    "NULL";
    "";
    "and list2 is:";
    "6 -> 5 -> 4 -> 3 -> 2 -> 1 -> 0 -> NULL";
    "";
    "Destroying Node with data 6";
    "Destroying Node with data 5";
    "Destroying Node with data 4";
    "After 3 pop()'s list 2 is:";
    "3 -> 2 -> 1 -> 0 -> NULL";
    "";
    "peek() on list 2 returns: 3";
    "... Another peek() on list2 returns: 3";
    "peek() on list returns: ";
    "EXCEPTION: Empty list: Attempt to dereference a NULL pointer";
    "Now after cleaning the list2...";
    "Destroying Node with data 3";
    "Destroying Node with data 2";
    "Destroying Node with data 1";
    "Destroying Node with data 0";
    "NULL";
    ""
  ].

(** ** Two lists side by side *)

(** A caller holding two lists: each call goes to the first ([true]) or to
    the second ([false]). *)
Fixpoint mutate_two {T} `{Insertable T} (stack : nat)
    (calls : list (bool * mutation T)) (a b : LinkedList)
  : M T (LinkedList * LinkedList) :=
  match calls with
  | [] => ret (a, b)
  | (true, m) :: calls' =>
      let* a := mutate stack m a in
      mutate_two stack calls' a b
  | (false, m) :: calls' =>
      let* b := mutate stack m b in
      mutate_two stack calls' a b
  end.

(** The calls that went to one of the two lists. *)
Definition calls_to {T} (first : bool) (calls : list (bool * mutation T))
  : list (mutation T) :=
  (filter (λ c, c.1 = first) calls).*2.

(** ** Sample states *)

(** Nothing allocated, nothing printed. *)
Definition empty_world : World int := mkWorld ∅ "".

(** A heap holding the list 30 -> 20 -> 10 and, apart from it, the
    one-node list 7. *)
Definition sample_heap : gmap loc (Node int) :=
  <[4%positive := mkNode 7%Z None]>
    (<[3%positive := mkNode 30%Z (Some 2%positive)]>
       (<[2%positive := mkNode 20%Z (Some 1%positive)]>
          (<[1%positive := mkNode 10%Z None]> ∅))).

Definition sample_world : World int := mkWorld sample_heap "".

Definition sample_list : LinkedList := mkList (Some 3%positive).

Definition sample_nodes : list (loc * int) :=
  [(3%positive, 30%Z); (2%positive, 20%Z); (1%positive, 10%Z)].

(** The values of [for (int i = 0; i < 100000; ++i) list.push(i);] *)
Definition stress_values : list int :=
  Z.of_nat <$> seq 0 (N.to_nat 100000).

(** ** Strings *)

Lemma string_app_assoc (a b c : string) : (a +:+ b) +:+ c = a +:+ (b +:+ c).
Proof.
  induction a as [|x a IH]; [done|].
  change (String x ((a +:+ b) +:+ c) = String x (a +:+ b +:+ c)).
  by rewrite IH.
Qed.

Lemma string_app_nil_r (a : string) : a +:+ "" = a.
Proof.
  induction a as [|x a IH]; [done|].
  change (String x (a +:+ "") = String x a).
  by rewrite IH.
Qed.

(** ** Chains *)

Section Chains.
Context {T : Type}.
Implicit Types (h : gmap loc (Node T)) (p : option loc) (ns : list (loc * T)).

Lemma chain_nil h p : chain h p [] ↔ p = None.
Proof. done. Qed.

Lemma chain_cons h l v next ns :
  h !! l = Some (mkNode v next) → chain h next ns →
  chain h (Some l) ((l, v) :: ns).
Proof. intros Hl Hns. simpl. eauto. Qed.

(** A pointer determines its chain. *)
Lemma chain_inj h p ns1 ns2 : chain h p ns1 → chain h p ns2 → ns1 = ns2.
Proof.
  revert p ns2. induction ns1 as [|[l v] ns1 IH]; intros p [|[l' v'] ns2]; simpl.
  - done.
  - intros -> [? _]. done.
  - intros [-> _] ?. done.
  - intros [-> (n1 & Hl1 & H1)] [[= <-] (n2 & Hl2 & H2)].
    rewrite Hl1 in Hl2. injection Hl2 as <- <-.
    f_equal. eauto.
Qed.

(** The chain only depends on the cells it visits. *)
Lemma chain_agree h h' p ns :
  (∀ l, l ∈ ns.*1 → h' !! l = h !! l) → chain h p ns → chain h' p ns.
Proof.
  revert p. induction ns as [|[l v] ns IH]; intros p Hag; simpl; [done|].
  intros [-> (next & Hl & Hns)]. split; [done|]. exists next. split.
  - rewrite Hag; [done | simpl; left].
  - apply IH; [|done]. intros l' Hl'. apply Hag. simpl. by right.
Qed.

Lemma chain_dom h p ns l : chain h p ns → l ∈ ns.*1 → l ∈ dom h.
Proof.
  revert p. induction ns as [|[l' v] ns IH]; intros p; simpl.
  - intros _ Hl. by apply elem_of_nil in Hl.
  - intros [-> (next & Hl' & Hns)] [->|Hl]%elem_of_cons.
    + apply elem_of_dom. eauto.
    + eauto.
Qed.

(** Every later node starts a chain of its own, a strictly shorter one. *)
Lemma chain_suffix h p ns l :
  chain h p ns → l ∈ ns.*1 →
  ∃ ns', chain h (Some l) ns' ∧ length ns' ≤ length ns.
Proof.
  revert p. induction ns as [|[l' v] ns IH]; intros p; simpl.
  - intros _ Hl. by apply elem_of_nil in Hl.
  - intros [-> (next & Hl' & Hns)] [->|Hl]%elem_of_cons.
    + exists ((l', v) :: ns). split; [|done]. simpl. eauto.
    + destruct (IH next Hns Hl) as (ns' & Hch & Hlen).
      exists ns'. split; [done | lia].
Qed.

(** Exclusive ownership: no node occurs twice in a chain, so the chain
    is acyclic. *)
Lemma chain_NoDup h p ns : chain h p ns → NoDup ns.*1.
Proof.
  revert p. induction ns as [|[l v] ns IH]; intros p; simpl.
  - intros _. constructor.
  - intros [-> (next & Hl & Hns)]. constructor; [|eauto].
    intros Hin.
    destruct (chain_suffix _ _ _ _ Hns Hin) as (ns' & Hch & Hlen).
    assert (Hall : chain h (Some l) ((l, v) :: ns)) by (simpl; eauto).
    pose proof (chain_inj _ _ _ _ Hch Hall) as ->. simpl in Hlen. lia.
Qed.

Lemma chain_insert h p ns l n :
  l ∉ ns.*1 → chain h p ns → chain (<[l := n]> h) p ns.
Proof.
  intros Hl. apply chain_agree. intros l' Hl'.
  apply lookup_insert_ne. intros ->. done.
Qed.

Lemma chain_delete h p ns l :
  l ∉ ns.*1 → chain h p ns → chain (delete l h) p ns.
Proof.
  intros Hl. apply chain_agree. intros l' Hl'.
  apply lookup_delete_ne. intros ->. done.
Qed.

Lemma chain_fresh h p ns : chain h p ns → fresh (dom h) ∉ ns.*1.
Proof.
  intros Hch Hin. apply (is_fresh (dom h)). eapply chain_dom; eauto.
Qed.

Lemma released_delete l ls h :
  released ls (delete l h) = delete l (released ls h).
Proof.
  unfold released. induction ls as [|l' ls IH]; simpl; [done|].
  rewrite IH. apply delete_delete.
Qed.

Lemma lookup_released ls h l :
  released ls h !! l = if decide (l ∈ ls) then None else h !! l.
Proof.
  unfold released. induction ls as [|l' ls IH].
  - rewrite decide_False; [done | apply not_elem_of_nil].
  - change (delete l' (foldr delete h ls) !! l =
            if decide (l ∈ l' :: ls) then None else h !! l).
    destruct (decide (l' = l)) as [->|Hne].
    + rewrite lookup_delete_eq, decide_True; [done | by left].
    + rewrite lookup_delete_ne, IH by done.
      destruct (decide (l ∈ ls)) as [Hin|Hin].
      * rewrite decide_True; [done | by right].
      * rewrite decide_False; [done|].
        intros [?|?]%elem_of_cons; congruence.
Qed.
End Chains.

(** ** One step at a time: the primitives on a known state *)

Section Steps.
Context {T : Type} `{Insertable T}.
Implicit Types (w : World T) (l : loc) (n : Node T).

Lemma bind_normal {A B} (m : M T A) (k : A → M T B) w a w' :
  m w = Normal a w' → bind m k w = k a w'.
Proof. unfold bind. by intros ->. Qed.

Lemma load_ok l n w : heap w !! l = Some n → load l w = Normal n w.
Proof. unfold load. by intros ->. Qed.

Lemma store_ok l n n0 w :
  heap w !! l = Some n0 →
  store l n w = Normal tt (mkWorld (<[l := n]> (heap w)) (cout w)).
Proof. unfold store. by intros ->. Qed.

Lemma free_ok l n w :
  heap w !! l = Some n →
  free l w = Normal tt (mkWorld (delete l (heap w)) (cout w)).
Proof. unfold free. by intros ->. Qed.

Lemma release_ptrNext_ok l v next w :
  heap w !! l = Some (mkNode v next) →
  release_ptrNext l w =
    Normal next (mkWorld (<[l := mkNode v None]> (heap w)) (cout w)).
Proof.
  intros Hl. unfold release_ptrNext.
  rewrite (bind_normal _ _ _ _ _ (load_ok _ _ _ Hl)). simpl.
  by rewrite (bind_normal _ _ _ _ _ (store_ok _ _ _ _ Hl)).
Qed.

Lemma assign_ptrNext_ok stack l v p w :
  heap w !! l = Some (mkNode v None) →
  assign_ptrNext stack l p w =
    Normal tt (mkWorld (<[l := mkNode v p]> (heap w)) (cout w)).
Proof.
  intros Hl. unfold assign_ptrNext.
  rewrite (bind_normal _ _ _ _ _ (load_ok _ _ _ Hl)). simpl.
  by rewrite (bind_normal _ _ _ _ _ (store_ok _ _ _ _ Hl)).
Qed.

(** Deleting a node whose [ptrNext] is null takes one destructor frame
    and removes that node alone. *)
Lemma delete_node_single stack l v w :
  heap w !! l = Some (mkNode v None) →
  delete_node (S stack) l w =
    Normal tt (mkWorld (delete l (heap w))
                 (cout w +:+ "Destroying Node with data " +:+ insert_to v +:+ endl)).
Proof.
  intros Hl. simpl.
  rewrite (bind_normal _ _ _ _ _ (load_ok _ _ _ Hl)). simpl.
  unfold bind at 1. simpl. unfold bind at 1. simpl.
  by rewrite (free_ok l (mkNode v None)).
Qed.

(** [push] on any state: it is a straight line of code. *)
Lemma push_eq stack v this w :
  push stack v this w =
    Normal (mkList (Some (fresh (dom (heap w)))))
      (mkWorld (<[fresh (dom (heap w)) := mkNode v (ptrHead this)]> (heap w))
         (cout w)).
Proof.
  unfold push. unfold bind at 1. simpl.
  erewrite bind_normal; last first.
  { apply assign_ptrNext_ok. simpl. apply lookup_insert_eq. }
  simpl. unfold bind, ret. simpl. by rewrite insert_insert_eq.
Qed.

(** [pop] on a list with a head node. *)
Lemma pop_eq stack head v next w :
  heap w !! head = Some (mkNode v next) →
  pop (S stack) (mkList (Some head)) w =
    Normal (mkList next)
      (mkWorld (delete head (heap w))
         (cout w +:+ "Destroying Node with data " +:+ insert_to v +:+ endl)).
Proof.
  intros Hl. unfold pop. simpl.
  rewrite (bind_normal _ _ _ _ _ (release_ptrNext_ok _ _ _ _ Hl)).
  unfold dispose.
  erewrite bind_normal; last first.
  { apply delete_node_single. simpl. apply lookup_insert_eq. }
  unfold ret. simpl. by rewrite delete_insert_eq.
Qed.

Lemma pop_empty stack w : pop stack (mkList None) w = Normal (mkList None) w.
Proof. done. Qed.

Lemma peek_eq head v next w :
  heap w !! head = Some (mkNode v next) →
  peek (mkList (Some head)) w = Normal v w.
Proof.
  intros Hl. unfold peek. simpl.
  by rewrite (bind_normal _ _ _ _ _ (load_ok _ _ _ Hl)).
Qed.

Lemma peek_empty w :
  peek (mkList None) w =
    Raised (out_of_range "Empty list: Attempt to dereference a NULL pointer") w.
Proof. done. Qed.
End Steps.

(** ** The member functions on a well-formed list *)

Section Functions.
Context {T : Type} `{Insertable T}.
Implicit Types (w : World T) (l : loc) (ns ms : list (loc * T)).

Lemma destroy_log_app (vs1 vs2 : list T) :
  destroy_log (vs1 ++ vs2) = destroy_log vs1 +:+ destroy_log vs2.
Proof.
  induction vs1 as [|v vs1 IH]; [done|].
  change (("Destroying Node with data " +:+ insert_to v +:+ endl +:+
             destroy_log (vs1 ++ vs2)) =
          ("Destroying Node with data " +:+ insert_to v +:+ endl +:+
             destroy_log vs1) +:+ destroy_log vs2).
  by rewrite IH, !string_app_assoc.
Qed.

(** [clean] needs one destructor frame and one turn per node, and leaves
    nothing of the chain behind. *)
Lemma clean_chain stack fuel this w ns :
  chain (heap w) (ptrHead this) ns → length ns ≤ fuel →
  clean (S stack) fuel this w =
    Normal (mkList None)
      (mkWorld (released ns.*1 (heap w)) (cout w +:+ destroy_log ns.*2)).
Proof.
  revert fuel this w. induction ns as [|[l v] ns IH]; intros fuel [p] w; simpl.
  - intros -> _. destruct fuel; simpl; unfold ret;
      rewrite string_app_nil_r; by destruct w.
  - intros [-> (next & Hl & Hns)] Hfuel.
    destruct fuel as [|fuel]; [lia|]. simpl.
    rewrite (bind_normal _ _ _ _ _ (release_ptrNext_ok _ _ _ _ Hl)).
    erewrite bind_normal; last first.
    { apply delete_node_single. simpl. apply lookup_insert_eq. }
    simpl. rewrite delete_insert_eq.
    assert (Hnd : l ∉ ns.*1).
    { assert (Hall : chain (heap w) (Some l) ((l, v) :: ns)) by (simpl; eauto).
      apply chain_NoDup in Hall. by inversion Hall. }
    rewrite (IH fuel (mkList next)); simpl; [| by apply chain_delete | lia].
    by rewrite released_delete, !string_app_assoc.
Qed.

(** [n] pops take the first [n] nodes away, head first. *)
Lemma pop_n_chain stack this w ms ns :
  chain (heap w) (ptrHead this) (ms ++ ns) →
  ∃ this', pop_n (S stack) (length ms) this w =
    Normal this'
      (mkWorld (released ms.*1 (heap w)) (cout w +:+ destroy_log ms.*2)) ∧
    chain (released ms.*1 (heap w)) (ptrHead this') ns.
Proof.
  revert this w. induction ms as [|[l v] ms IH]; intros [p] w; simpl.
  - intros Hns. exists (mkList p). unfold ret.
    rewrite string_app_nil_r. by destruct w.
  - intros [-> (next & Hl & Hns)].
    rewrite (bind_normal _ _ _ _ _ (pop_eq stack _ _ _ _ Hl)).
    assert (Hnd : l ∉ (ms ++ ns).*1).
    { assert (Hall : chain (heap w) (Some l) ((l, v) :: ms ++ ns))
        by (simpl; eauto).
      apply chain_NoDup in Hall. by inversion Hall. }
    destruct (IH (mkList next)
                (mkWorld (delete l (heap w))
                   (cout w +:+ "Destroying Node with data " +:+
                      insert_to v +:+ endl)))
      as (this' & Hrun & Hch); [by apply chain_delete|].
    exists this'. simpl in Hrun, Hch. rewrite Hrun.
    rewrite released_delete in Hch |- *.
    by rewrite !string_app_assoc.
Qed.

(** [print] writes the elements head first and changes nothing. *)
Lemma print_loop_chain fuel p os w ns :
  chain (heap w) p ns → length ns ≤ fuel →
  print_loop fuel p os w = Normal (os +:+ arrows ns.*2) w.
Proof.
  revert fuel p os. induction ns as [|[l v] ns IH]; intros fuel p os; simpl.
  - intros -> _. destruct fuel; simpl; unfold ret; by rewrite string_app_nil_r.
  - intros [-> (next & Hl & Hns)] Hfuel.
    destruct fuel as [|fuel]; [lia|]. simpl.
    rewrite (bind_normal _ _ _ _ _ (load_ok _ _ _ Hl)). simpl.
    rewrite (IH fuel next); [| done | lia].
    by rewrite !string_app_assoc.
Qed.

Lemma print_chain fuel this os w ns :
  chain (heap w) (ptrHead this) ns → length ns ≤ fuel →
  print fuel this os w = Normal (os +:+ arrows ns.*2 +:+ "NULL" +:+ endl) w.
Proof.
  intros Hch Hfuel. unfold print.
  rewrite (bind_normal _ _ _ _ _ (print_loop_chain _ _ os _ _ Hch Hfuel)).
  unfold ret. by rewrite !string_app_assoc.
Qed.

(** Left to the destructors, a chain of [n] nodes nests [n] calls of
    [~Node()]: with fewer frames the teardown overflows the stack ... *)
Lemma delete_node_overflow stack l w ns :
  chain (heap w) (Some l) ns → stack < length ns →
  delete_node stack l w = Fault StackOverflow.
Proof.
  revert stack l w. induction ns as [|[l' v] ns IH]; intros stack l w; simpl.
  - done.
  - intros [[= ->] (next & Hl & Hns)] Hstack.
    destruct stack as [|stack]; [done|]. simpl.
    rewrite (bind_normal _ _ _ _ _ (load_ok _ _ _ Hl)). simpl.
    unfold bind at 1. simpl. unfold bind at 1.
    destruct ns as [|[l2 v2] ns]; [simpl in Hstack; lia|].
    pose proof Hns as [-> _].
    rewrite (IH stack l2); [done | done | simpl in *; lia].
Qed.

(** ... and with that many frames it goes through. *)
Lemma delete_node_cascade stack l w ns :
  chain (heap w) (Some l) ns → length ns ≤ stack →
  delete_node stack l w =
    Normal tt
      (mkWorld (released ns.*1 (heap w)) (cout w +:+ destroy_log ns.*2)).
Proof.
  revert stack l w. induction ns as [|[l' v] ns IH]; intros stack l w.
  - done.
  - intros Hall Hstack. pose proof (chain_NoDup _ _ _ Hall) as Hnd.
    destruct Hall as [[= ->] (next & Hl & Hns)].
    destruct stack as [|stack]; [simpl in Hstack; lia|].
    simpl in Hl, Hns, Hstack, Hnd. apply NoDup_cons in Hnd as [Hnin _].
    simpl. rewrite (bind_normal _ _ _ _ _ (load_ok _ _ _ Hl)). simpl.
    unfold bind at 1. simpl.
    set (w1 := mkWorld (heap w) _).
    assert (Hrest : match next with
                    | Some next => delete_node stack next
                    | None => ret tt
                    end w1 =
              Normal tt (mkWorld (released ns.*1 (heap w))
                           (cout w1 +:+ destroy_log ns.*2))).
    { destruct ns as [|[l2 v2] ns].
      - simpl in Hns. subst next. unfold ret. simpl.
        by rewrite string_app_nil_r.
      - pose proof Hns as [-> _].
        apply (IH stack l2 w1); [done | simpl in *; lia]. }
    rewrite (bind_normal _ _ _ _ _ Hrest).
    erewrite free_ok; last first.
    { simpl. rewrite lookup_released, decide_False; done. }
    simpl. by rewrite !string_app_assoc.
Qed.
End Functions.

Section Callers.
Context {T : Type} `{Insertable T}.
Implicit Types (w : World T) (l : loc) (ns ms : list (loc * T)).

(** Pushing [vs] stacks fresh nodes in front of the chain, last pushed
    first; taking them away again gives the heap back. *)
Lemma push_all_chain stack vs this w ns :
  chain (heap w) (ptrHead this) ns →
  ∃ this' w' ms,
    push_all stack vs this w = Normal this' w' ∧
    chain (heap w') (ptrHead this') (ms ++ ns) ∧
    ms.*2 = reverse vs ∧
    cout w' = cout w ∧
    released ms.*1 (heap w') = heap w.
Proof.
  revert this w ns. induction vs as [|v vs IH]; intros this w ns Hns.
  - exists this, w, []. done.
  - simpl. rewrite (bind_normal _ _ _ _ _ (push_eq stack v this w)).
    set (l := fresh (dom (heap w))).
    set (w1 := mkWorld (<[l := mkNode v (ptrHead this)]> (heap w)) (cout w)).
    assert (Hl : l ∉ ns.*1) by (by eapply chain_fresh).
    assert (Hch1 : chain (heap w1) (Some l) ((l, v) :: ns)).
    { apply (chain_cons _ _ _ (ptrHead this)).
      - apply lookup_insert_eq.
      - by apply chain_insert. }
    destruct (IH (mkList (Some l)) w1 _ Hch1)
      as (this' & w' & ms & Hrun & Hch & Hvs & Hcout & Hrel).
    exists this', w', (ms ++ [(l, v)]). split; [done|]. split.
    { by rewrite <- app_assoc. }
    split.
    { rewrite fmap_app, Hvs, reverse_cons. done. }
    split; [done|].
    rewrite fmap_app. unfold released in *. rewrite foldr_app. simpl.
    fold (released ms.*1 (delete l (heap w'))).
    rewrite released_delete. unfold released. rewrite Hrel. simpl.
    rewrite delete_insert_eq. apply delete_id.
    apply not_elem_of_dom. apply is_fresh.
Qed.

(** Mutating one list through its interface leaves the chain of any
    list that shares no node with it exactly as it was. *)
Lemma mutate_all_frame stack muts a b w na nb :
  chain (heap w) (ptrHead a) na →
  chain (heap w) (ptrHead b) nb →
  (∀ l, l ∈ na.*1 → l ∉ nb.*1) →
  ∃ a' w' na',
    mutate_all (S stack) muts a w = Normal a' w' ∧
    chain (heap w') (ptrHead a') na' ∧
    na'.*2 = foldl mutated na.*2 muts ∧
    chain (heap w') (ptrHead b) nb ∧
    (∀ l, l ∈ na'.*1 → l ∉ nb.*1).
Proof.
  revert a w na. induction muts as [|[v|] muts IH]; intros a w na Ha Hb Hdisj.
  - exists a, w, na. done.
  - simpl. rewrite (bind_normal _ _ _ _ _ (push_eq (S stack) v a w)).
    set (l := fresh (dom (heap w))).
    assert (Hla : l ∉ na.*1) by (by eapply chain_fresh).
    assert (Hlb : l ∉ nb.*1) by (by eapply chain_fresh).
    apply (IH (mkList (Some l)) _ ((l, v) :: na)); simpl.
    + split; [done|]. exists (ptrHead a). split; [apply lookup_insert_eq|].
      by apply chain_insert.
    + by apply chain_insert.
    + intros l' [->|Hl']%elem_of_cons; auto.
  - destruct na as [|[l v] na].
    + simpl in Ha. destruct a as [p]. simpl in Ha. subst p.
      simpl. rewrite (bind_normal _ _ _ _ _ (pop_empty (S stack) w)).
      apply (IH (mkList None) w []); done.
    + pose proof (chain_NoDup _ _ _ Ha) as Hnd.
      simpl in Hnd. apply NoDup_cons in Hnd as [Hnin _].
      destruct a as [p]. destruct Ha as [Hp (next & Hl & Hna)].
      simpl in Hp, Hl, Hna. subst p.
      simpl. rewrite (bind_normal _ _ _ _ _ (pop_eq stack _ _ _ _ Hl)).
      apply (IH (mkList next) _ na); simpl.
      * by apply chain_delete.
      * apply chain_delete; [|done]. apply Hdisj. simpl. left.
      * intros l' Hl'. apply Hdisj. simpl. by right.
Qed.
End Callers.

(** ** The copy constructor *)

Section Copy.
Context {T : Type} `{Insertable T}.
Implicit Types (w : World T) (l : loc) (ns ms : list (loc * T)).

(** The loop once the new list has a head: [ptrCurrNode] is the last new
    node, its [ptrNext] still null, and each turn hangs a fresh copy of
    the node under [ptrCursor] behind it. *)
Lemma copy_loop_tail stack fuel hd curr x cursor w ns :
  heap w !! curr = Some (mkNode x None) →
  chain (heap w) cursor ns → curr ∉ ns.*1 → length ns ≤ fuel →
  ∃ w' ms,
    copy_loop stack fuel (Some hd) (Some curr) cursor w = Normal (Some hd) w' ∧
    chain (heap w') (Some curr) ((curr, x) :: ms) ∧
    ms.*2 = ns.*2 ∧
    (∀ l, l ∈ ms.*1 → l ∉ dom (heap w)) ∧
    (∀ l, l ∈ dom (heap w) → l ≠ curr → heap w' !! l = heap w !! l) ∧
    cout w' = cout w.
Proof.
  revert fuel curr x cursor w.
  induction ns as [|[c v] ns IH]; intros fuel curr x cursor w Hcurr Hns Hnin Hfuel.
  - simpl in Hns. subst cursor. exists w, []. split.
    { by destruct fuel. }
    split; [simpl; eauto|]. split; [done|]. split; [|done].
    intros l Hl. by apply elem_of_nil in Hl.
  - destruct Hns as [-> (next & Hc & Hns)]. simpl in Hc, Hns, Hnin, Hfuel.
    destruct fuel as [|fuel]; [lia|].
    apply not_elem_of_cons in Hnin as [Hcc Hnin].
    set (l := fresh (dom (heap w))).
    assert (Hfresh : l ∉ dom (heap w)) by apply is_fresh.
    assert (Hlc : l ≠ c).
    { intros ->. apply Hfresh. apply elem_of_dom. eauto. }
    assert (Hlcurr : l ≠ curr).
    { intros ->. apply Hfresh. apply elem_of_dom. eauto. }
    assert (Hlns : l ∉ ns.*1).
    { intros Hin. apply Hfresh. eapply chain_dom; eauto. }
    set (h1 := <[l := mkNode v None]> (heap w)).
    set (h2 := <[curr := mkNode x (Some l)]> h1).
    set (w2 := mkWorld h2 (cout w)).
    assert (Hstep : ∀ k : option loc * option loc → M T (option loc),
      bind (bind (assign_ptrNext stack curr (Some l))
              (λ _, bind (load curr) (λ n, ret (Some hd, ptrNext n)))) k
        (mkWorld h1 (cout w)) = k (Some hd, Some l) w2).
    { intros k. erewrite bind_normal; [done|].
      erewrite bind_normal; last first.
      { apply (assign_ptrNext_ok _ _ x). simpl. unfold h1.
        by rewrite lookup_insert_ne. }
      simpl. erewrite bind_normal; last first.
      { apply load_ok. simpl. apply lookup_insert_eq. }
      done. }
    assert (Hc2 : heap w2 !! c = Some (mkNode v next)).
    { simpl. unfold h2, h1. by rewrite !lookup_insert_ne. }
    destruct (IH fuel l v next w2) as (w' & ms & Hrun & Hch & Hvs & Hnew & Hold & Hcout).
    { simpl. unfold h2, h1. rewrite lookup_insert_ne by done.
      apply lookup_insert_eq. }
    { simpl. unfold h2, h1.
      apply chain_insert; [done|]. by apply chain_insert. }
    { done. }
    { lia. }
    exists w', ((l, v) :: ms). split.
    { simpl. rewrite (bind_normal _ _ _ _ _ (load_ok _ _ _ Hc)). simpl.
      unfold bind at 1. unfold make_unique at 1. fold l. fold h1.
      rewrite Hstep. simpl.
      rewrite (bind_normal _ _ _ _ _ (load_ok _ _ _ Hc2)). simpl.
      exact Hrun. }
    assert (Hdom2 : ∀ l', l' ∈ dom (heap w) → l' ∈ dom (heap w2)).
    { intros l' Hl'. simpl. unfold h2, h1. rewrite !dom_insert_L.
      by do 2 apply elem_of_union_r. }
    split.
    { split; [done|]. exists (Some l). split; [|done]. simpl.
      rewrite Hold.
      - simpl. unfold h2. apply lookup_insert_eq.
      - apply Hdom2. apply elem_of_dom. eauto.
      - done. }
    split; [simpl; f_equal; exact Hvs|]. split.
    { intros l' [->|Hl']%elem_of_cons; [done|].
      intros Hin. by apply (Hnew l' Hl'), Hdom2. }
    split; [|done].
    intros l' Hl' Hne. rewrite Hold.
    + simpl. unfold h2, h1. rewrite !lookup_insert_ne; [done | | done].
      intros ->. done.
    + by apply Hdom2.
    + intros ->. done.
Qed.

(** The whole loop, from its initial locals. *)
Lemma copy_loop_chain stack fuel cursor w ns :
  chain (heap w) cursor ns → length ns ≤ fuel →
  ∃ p w' ms,
    copy_loop stack fuel None None cursor w = Normal p w' ∧
    chain (heap w') p ms ∧
    ms.*2 = ns.*2 ∧
    (∀ l, l ∈ ms.*1 → l ∉ dom (heap w)) ∧
    (∀ l, l ∈ dom (heap w) → heap w' !! l = heap w !! l) ∧
    cout w' = cout w.
Proof.
  intros Hns Hfuel. destruct ns as [|[c v] ns].
  - simpl in Hns. subst cursor. exists None, w, []. split.
    { by destruct fuel. }
    split; [done|]. split; [done|]. split; [|done].
    intros l Hl. by apply elem_of_nil in Hl.
  - destruct Hns as [-> (next & Hc & Hns)]. simpl in Hc, Hns, Hfuel.
    destruct fuel as [|fuel]; [lia|].
    set (l := fresh (dom (heap w))).
    assert (Hfresh : l ∉ dom (heap w)) by apply is_fresh.
    assert (Hlc : l ≠ c).
    { intros ->. apply Hfresh. apply elem_of_dom. eauto. }
    assert (Hlns : l ∉ ns.*1).
    { intros Hin. apply Hfresh. eapply chain_dom; eauto. }
    set (w1 := mkWorld (<[l := mkNode v None]> (heap w)) (cout w)).
    assert (Hc1 : heap w1 !! c = Some (mkNode v next)).
    { simpl. by rewrite lookup_insert_ne. }
    destruct (copy_loop_tail stack fuel l l v next w1 ns)
      as (w' & ms & Hrun & Hch & Hvs & Hnew & Hold & Hcout).
    { simpl. apply lookup_insert_eq. }
    { simpl. by apply chain_insert. }
    { done. }
    { lia. }
    assert (Hdom1 : ∀ l', l' ∈ dom (heap w) → l' ∈ dom (heap w1)).
    { intros l' Hl'. simpl. rewrite dom_insert_L. by apply elem_of_union_r. }
    exists (Some l), w', ((l, v) :: ms). split.
    { simpl. rewrite (bind_normal _ _ _ _ _ (load_ok _ _ _ Hc)). simpl.
      unfold bind at 1. unfold make_unique at 1. fold l. fold w1.
      unfold bind at 1. simpl.
      rewrite (bind_normal _ _ _ _ _ (load_ok _ _ _ Hc1)). simpl.
      exact Hrun. }
    split; [done|]. split; [simpl; f_equal; exact Hvs|]. split.
    { intros l' [->|Hl']%elem_of_cons; [done|].
      intros Hin. by apply (Hnew l' Hl'), Hdom1. }
    split; [|done].
    intros l' Hl'. rewrite Hold.
    + simpl. rewrite lookup_insert_ne; [done|]. intros ->. done.
    + by apply Hdom1.
    + intros ->. done.
Qed.

(** The constructor: a chain of fresh nodes with the same elements, every
    cell that existed before untouched, nothing written. *)
Lemma LinkedList_copy_chain stack fuel list w ns :
  chain (heap w) (ptrHead list) ns → length ns ≤ fuel →
  ∃ this w' ms,
    LinkedList_copy stack fuel list w = Normal (this, list) w' ∧
    chain (heap w') (ptrHead this) ms ∧
    ms.*2 = ns.*2 ∧
    (∀ l, l ∈ ms.*1 → l ∉ dom (heap w)) ∧
    (∀ l, l ∈ dom (heap w) → heap w' !! l = heap w !! l) ∧
    cout w' = cout w.
Proof.
  intros Hns Hfuel.
  destruct (copy_loop_chain stack fuel _ _ _ Hns Hfuel)
    as (p & w' & ms & Hrun & Hrest).
  exists (mkList p), w', ms. split; [|done].
  unfold LinkedList_copy. by rewrite (bind_normal _ _ _ _ _ Hrun).
Qed.
End Copy.

(** ** Which member functions can throw *)

Create HintDb noraise.

Section NoRaise.
Context {T : Type} `{Insertable T}.

Lemma never_raises_ret {A} (a : A) : never_raises (ret (T := T) a).
Proof. intros w e w'. done. Qed.

Lemma never_raises_crash {A} (f : fault) : never_raises (crash (T := T) (A := A) f).
Proof. intros w e w'. done. Qed.

Lemma never_raises_bind {A B} (m : M T A) (k : A → M T B) :
  never_raises m → (∀ a, never_raises (k a)) → never_raises (bind m k).
Proof.
  intros Hm Hk w e w'. unfold bind.
  destruct (m w) as [a w1|e1 w1|f] eqn:Hmw.
  - apply Hk.
  - by destruct (Hm w e1 w1).
  - done.
Qed.

Lemma never_raises_load l : never_raises (load (T := T) l).
Proof. intros w e w'. unfold load. by destruct (heap w !! l). Qed.

Lemma never_raises_store l n : never_raises (store (T := T) l n).
Proof. intros w e w'. unfold store. by destruct (heap w !! l). Qed.

Lemma never_raises_free l : never_raises (free (T := T) l).
Proof. intros w e w'. unfold free. by destruct (heap w !! l). Qed.

Lemma never_raises_write_cout s : never_raises (write_cout (T := T) s).
Proof. intros w e w'. done. Qed.

Lemma never_raises_make_unique data : never_raises (make_unique (T := T) data).
Proof. intros w e w'. done. Qed.

Hint Resolve never_raises_ret never_raises_crash never_raises_bind
  never_raises_load never_raises_store never_raises_free
  never_raises_write_cout never_raises_make_unique : noraise.

Lemma never_raises_release_ptrNext l : never_raises (release_ptrNext (T := T) l).
Proof. unfold release_ptrNext. auto 10 with noraise. Qed.

Lemma never_raises_delete_node stack l : never_raises (delete_node stack l).
Proof.
  revert l. induction stack as [|stack IH]; intros l; simpl.
  - auto with noraise.
  - apply never_raises_bind; [auto with noraise|]. intros n.
    apply never_raises_bind; [auto with noraise|]. intros _.
    apply never_raises_bind; [|auto with noraise].
    destruct (ptrNext n); auto with noraise.
Qed.

Lemma never_raises_dispose stack old : never_raises (dispose stack old).
Proof.
  destruct old; simpl; auto using never_raises_delete_node with noraise.
Qed.

Hint Resolve never_raises_release_ptrNext never_raises_delete_node
  never_raises_dispose : noraise.

Lemma never_raises_assign_ptrNext stack l p :
  never_raises (assign_ptrNext stack l p).
Proof. unfold assign_ptrNext. auto 10 with noraise. Qed.

Hint Resolve never_raises_assign_ptrNext : noraise.

Lemma never_raises_push stack data this : never_raises (push stack data this).
Proof. unfold push. auto 10 with noraise. Qed.

Lemma never_raises_pop stack this : never_raises (pop stack this).
Proof. unfold pop. destruct (ptrHead this); auto 10 with noraise. Qed.

Lemma never_raises_clean stack fuel this : never_raises (clean stack fuel this).
Proof.
  revert this. induction fuel as [|fuel IH]; intros [[head|]]; simpl;
    auto 10 with noraise.
Qed.

Lemma never_raises_print_loop fuel p os : never_raises (print_loop fuel p os).
Proof.
  revert p os. induction fuel as [|fuel IH]; intros [cursor|] os; simpl;
    auto 10 with noraise.
Qed.

Lemma never_raises_print fuel this os : never_raises (print fuel this os).
Proof.
  unfold print. auto using never_raises_print_loop with noraise.
Qed.

Lemma never_raises_copy_loop stack fuel ptrNewHead ptrCurrNode ptrCursor :
  never_raises (copy_loop stack fuel ptrNewHead ptrCurrNode ptrCursor).
Proof.
  revert ptrNewHead ptrCurrNode ptrCursor.
  induction fuel as [|fuel IH]; intros nh cn [cursor|]; simpl;
    auto with noraise.
  apply never_raises_bind; [auto with noraise|]. intros src.
  apply never_raises_bind; [auto with noraise|]. intros ptrTemp.
  apply never_raises_bind; [|auto with noraise].
  destruct nh as [?|]; [destruct cn as [?|]|]; auto 10 with noraise.
Qed.

Lemma never_raises_LinkedList_copy stack fuel list :
  never_raises (LinkedList_copy stack fuel list).
Proof.
  unfold LinkedList_copy. auto using never_raises_copy_loop with noraise.
Qed.

Lemma never_raises_LinkedList_move stack list :
  never_raises (LinkedList_move stack list).
Proof. unfold LinkedList_move. auto with noraise. Qed.

Lemma never_raises_LinkedList_destroy stack fuel this :
  never_raises (LinkedList_destroy stack fuel this).
Proof.
  unfold LinkedList_destroy. auto using never_raises_clean with noraise.
Qed.
End NoRaise.

(** ** The properties of the specification *)

Section Purity.
Context {T : Type} `{Insertable T}.

(** [print] is [const]: whenever it returns, the state is the one it
    started from; and it does not throw. *)
Lemma print_loop_pure fuel p os (w : World T) :
  match print_loop fuel p os w with
  | Normal _ w' => w' = w
  | Raised _ _ => False
  | Fault _ => True
  end.
Proof.
  revert p os. induction fuel as [|fuel IH]; intros [cursor|] os; simpl; try done.
  unfold bind at 1. unfold load. destruct (heap w !! cursor); [apply IH | done].
Qed.

Lemma print_pure fuel this os (w : World T) :
  match print fuel this os w with
  | Normal _ w' => w' = w
  | Raised _ _ => False
  | Fault _ => True
  end.
Proof.
  unfold print, bind.
  pose proof (print_loop_pure fuel (ptrHead this) os w) as Hloop.
  by destruct (print_loop fuel (ptrHead this) os w).
Qed.

End Purity.

(** C1. Last in, first out: after pushing one or more values onto a list
    created empty, [peek] returns the value pushed last. *)
Theorem push_all_peek_last {T} `{Insertable T}
    (stack : nat) (vs : list T) (w : World T) :
  1 ≤ length vs →
  ∃ this w' v,
    last vs = Some v ∧
    push_all stack vs LinkedList_default w = Normal this w' ∧
    peek this w' = Normal v w'.
Proof.
  intros Hlen.
  destruct (push_all_chain stack vs LinkedList_default w [])
    as (this & w' & ms & Hrun & Hch & Hvs & _); [done|].
  destruct (last vs) as [v|] eqn:Hlast; last first.
  { apply last_None in Hlast. subst vs. simpl in Hlen. lia. }
  exists this, w', v. split; [done|]. split; [done|].
  rewrite <- head_reverse, <- Hvs in Hlast.
  destruct ms as [|[l v'] ms]; [done|]. simpl in Hlast. injection Hlast as ->.
  destruct this as [p]. destruct Hch as [Hp (next & Hl & _)].
  simpl in Hp, Hl. subst p. by apply (peek_eq _ _ next).
Qed.

Lemma push_all_peek_last_witness :
  ∃ this w' v,
    last [1; 2; 3]%Z = Some v ∧
    push_all 0 [1; 2; 3]%Z LinkedList_default empty_world = Normal this w' ∧
    peek this w' = Normal v w'.
Proof. apply (push_all_peek_last 0 [1; 2; 3]%Z empty_world). simpl. lia. Defined.

(** C7. Pushing any number of values onto a list created empty and then
    popping as many times leaves the list empty, with the heap as it was
    before the pushes; one more [pop] returns without an exception and
    changes nothing. *)
Theorem push_all_pop_n_empty {T} `{Insertable T}
    (stack stack' : nat) (vs : list T) (w : World T) :
  ∃ this w1 w2,
    push_all stack vs LinkedList_default w = Normal this w1 ∧
    pop_n (S stack') (length vs) this w1 = Normal (mkList None) w2 ∧
    heap w2 = heap w ∧
    pop (S stack') (mkList None) w2 = Normal (mkList None) w2.
Proof.
  destruct (push_all_chain stack vs LinkedList_default w [])
    as (this & w1 & ms & Hrun & Hch & Hvs & _ & Hrel); [done|].
  destruct (pop_n_chain stack' this w1 ms [] Hch) as (this' & Hpops & Hch').
  assert (Hlen : length ms = length vs).
  { by rewrite <- (length_fmap snd ms), Hvs, length_reverse. }
  rewrite Hlen in Hpops.
  destruct this' as [p]. simpl in Hch'. subst p.
  eexists this, w1, _. split; [done|]. split; [exact Hpops|]. done.
Qed.

(** C4. [pop] on an empty list returns normally and changes nothing; on a
    list with nodes it frees the head node and no other cell (the
    destructor writing its one line), and what the list then holds is the
    rest of the chain: one node fewer, the tail of the sequence. *)
Theorem pop_spec {T} `{Insertable T} (stack : nat) (w : World T) :
  pop stack (mkList None) w = Normal (mkList None) w ∧
  ∀ this l v ns,
    chain (heap w) (ptrHead this) ((l, v) :: ns) →
    ∃ this',
      pop (S stack) this w =
        Normal this'
          (mkWorld (delete l (heap w))
             (cout w +:+ "Destroying Node with data " +:+ insert_to v +:+ endl)) ∧
      chain (delete l (heap w)) (ptrHead this') ns ∧
      length ns = pred (length ((l, v) :: ns)) ∧
      ns.*2 = tail ((l, v) :: ns).*2.
Proof.
  split; [done|]. intros [p] l v ns Hch.
  pose proof (chain_NoDup _ _ _ Hch) as Hnd.
  simpl in Hnd. apply NoDup_cons in Hnd as [Hnin _].
  destruct Hch as [Hp (next & Hl & Hns)]. simpl in Hp, Hl, Hns. subst p.
  exists (mkList next). split; [by apply pop_eq|].
  split; [by apply chain_delete | done].
Qed.

Lemma pop_spec_witness :
  ∃ this',
    pop 1 sample_list sample_world =
      Normal this'
        (mkWorld (delete 3%positive (heap sample_world))
           (cout sample_world +:+ "Destroying Node with data " +:+
              insert_to 30%Z +:+ endl)) ∧
    chain (delete 3%positive (heap sample_world)) (ptrHead this')
      [(2%positive, 20%Z); (1%positive, 10%Z)] ∧
    length [(2%positive, 20%Z); (1%positive, 10%Z)] =
      pred (length sample_nodes) ∧
    [(2%positive, 20%Z); (1%positive, 10%Z)].*2 = tail sample_nodes.*2.
Proof.
  apply (proj2 (pop_spec 0 sample_world) sample_list 3%positive 30%Z
           [(2%positive, 20%Z); (1%positive, 10%Z)]).
  simpl. repeat (split || eexists); reflexivity.
Defined.

(** C3. [peek] throws exactly when the list has no head, and what it throws
    is the one exception of the program, with the state left alone; on a
    list with nodes it returns the head's element and leaves the state as
    it was, so that two calls in a row return the same value.  No other
    member function can throw. *)
Theorem peek_spec {T} `{Insertable T} (this : LinkedList) (w : World T) :
  ((∃ e w', peek this w = Raised e w') ↔ ptrHead this = None) ∧
  (∀ e w', peek this w = Raised e w' →
     e = out_of_range "Empty list: Attempt to dereference a NULL pointer" ∧
     w' = w) ∧
  (∀ l v ns,
     chain (heap w) (ptrHead this) ((l, v) :: ns) →
     peek this w = Normal v w ∧
     (let* a := peek this in let* b := peek this in ret (a, b)) w =
       Normal (v, v) w) ∧
  (∀ stack fuel data os,
     never_raises (push stack data this) ∧
     never_raises (pop stack this) ∧
     never_raises (clean stack fuel this) ∧
     never_raises (print fuel this os) ∧
     never_raises (LinkedList_copy stack fuel this) ∧
     never_raises (LinkedList_move stack this) ∧
     never_raises (LinkedList_destroy stack fuel this)).
Proof.
  destruct this as [p]. split; [|split; [|split]].
  - split.
    + intros (e & w' & Hpeek). destruct p as [head|]; [|done].
      exfalso. revert Hpeek. unfold peek, bind, load. simpl.
      by destruct (heap w !! head).
    + simpl. intros ->. eauto.
  - intros e w'. destruct p as [head|].
    + unfold peek, bind, load. simpl. by destruct (heap w !! head).
    + simpl. unfold throw. by intros [= <- <-].
  - intros l v ns [Hp (next & Hl & _)]. simpl in Hp, Hl. subst p.
    pose proof (peek_eq _ _ _ _ Hl) as Hpeek. split; [done|].
    by rewrite !(bind_normal _ _ _ _ _ Hpeek).
  - intros stack fuel data os.
    auto 10 using never_raises_push, never_raises_pop, never_raises_clean,
      never_raises_print, never_raises_LinkedList_copy,
      never_raises_LinkedList_move, never_raises_LinkedList_destroy.
Qed.

Lemma peek_spec_witness :
  peek sample_list sample_world = Normal 30%Z sample_world ∧
  (let* a := peek sample_list in let* b := peek sample_list in ret (a, b))
    sample_world = Normal (30%Z, 30%Z) sample_world.
Proof.
  apply (proj1 (proj2 (proj2 (peek_spec sample_list sample_world)))
           3%positive 30%Z [(2%positive, 20%Z); (1%positive, 10%Z)]).
  simpl. repeat (split || eexists); reflexivity.
Defined.

(** C2. [clean] returns on every list, the empty one included: given one
    turn of its loop per node, it ends with the head null, every node of the
    chain freed and no other cell touched, one destructor line written per
    node, head first.  A single destructor frame is enough whatever the
    length, so nothing in it nests with the length of the list; a [peek]
    afterwards throws.  In particular [clean] after any number of pushes,
    and after the 100000 pushes of the stress scenario, succeeds with that
    one frame and gives the heap back. *)
Theorem clean_spec {T} `{Insertable T} :
  (∀ stack fuel (w : World T),
     clean stack fuel (mkList None) w = Normal (mkList None) w) ∧
  (∀ stack fuel this (w : World T) ns,
     chain (heap w) (ptrHead this) ns → length ns ≤ fuel →
     ∃ w',
       clean (S stack) fuel this w = Normal (mkList None) w' ∧
       clean 1 fuel this w = Normal (mkList None) w' ∧
       heap w' = released ns.*1 (heap w) ∧
       (∀ l, l ∈ ns.*1 → heap w' !! l = None) ∧
       (∀ l, l ∉ ns.*1 → heap w' !! l = heap w !! l) ∧
       cout w' = cout w +:+ destroy_log ns.*2 ∧
       peek (mkList None) w' =
         Raised
           (out_of_range "Empty list: Attempt to dereference a NULL pointer") w') ∧
  (∀ (vs : list T) (w : World T),
     ∃ this w1 w2,
       push_all 0 vs LinkedList_default w = Normal this w1 ∧
       clean 1 (length vs) this w1 = Normal (mkList None) w2 ∧
       heap w2 = heap w) ∧
  (∀ w : World int,
     ∃ this w1 w2,
       push_all 0 stress_values LinkedList_default w = Normal this w1 ∧
       clean 1 (N.to_nat 100000) this w1 = Normal (mkList None) w2 ∧
       heap w2 = heap w).
Proof.
  assert (Hpushes : ∀ (U : Type) (HU : Insertable U) (vs : list U) (w : World U),
            ∃ this w1 w2,
              push_all 0 vs LinkedList_default w = Normal this w1 ∧
              clean 1 (length vs) this w1 = Normal (mkList None) w2 ∧
              heap w2 = heap w).
  { intros U HU vs w.
    destruct (push_all_chain 0 vs LinkedList_default w [])
      as (this & w1 & ms & Hrun & Hch & Hvs & _ & Hrel); [done|].
    rewrite app_nil_r in Hch.
    assert (Hlen : length ms = length vs).
    { by rewrite <- (length_fmap snd ms), Hvs, length_reverse. }
    eexists this, w1, _. split; [done|]. split.
    - apply (clean_chain 0 _ _ _ ms); [done | lia].
    - done. }
  split; [|split; [|split]].
  - intros stack fuel w. by destruct fuel.
  - intros stack fuel this w ns Hch Hfuel.
    eexists. split; [by apply clean_chain|]. split; [by apply clean_chain|].
    split; [done|]. split; [|split; [|done]].
    + intros l Hl. simpl. by rewrite lookup_released, decide_True.
    + intros l Hl. simpl. by rewrite lookup_released, decide_False.
  - apply Hpushes.
  - intros w. destruct (Hpushes int _ stress_values w)
      as (this & w1 & w2 & Hrun & Hclean & Hheap).
    exists this, w1, w2. split; [done|]. split; [|done].
    unfold stress_values in Hclean.
    by rewrite length_fmap, length_seq in Hclean.
Qed.

Lemma clean_spec_witness :
  ∃ w',
    clean 1 3 sample_list sample_world = Normal (mkList None) w' ∧
    clean 1 3 sample_list sample_world = Normal (mkList None) w' ∧
    heap w' = released sample_nodes.*1 (heap sample_world) ∧
    (∀ l, l ∈ sample_nodes.*1 → heap w' !! l = None) ∧
    (∀ l, l ∉ sample_nodes.*1 → heap w' !! l = heap sample_world !! l) ∧
    cout w' = cout sample_world +:+ destroy_log sample_nodes.*2 ∧
    peek (mkList None) w' =
      Raised
        (out_of_range "Empty list: Attempt to dereference a NULL pointer") w'.
Proof.
  apply (proj1 (proj2 (clean_spec (T := int))) 0 3 sample_list sample_world
           sample_nodes).
  - simpl. repeat (split || eexists); reflexivity.
  - simpl. lia.
Defined.

(** C5. Copy construction from a well-formed list returns a list whose
    elements, head to tail, are those of the source at that moment, held
    in nodes allocated by the constructor: none of them existed before, so
    none is a node of the source.  From then on, whatever pushes and pops
    are applied to either list, the other keeps the very chain it had:
    same nodes, same elements, same length. *)
Theorem LinkedList_copy_spec {T} `{Insertable T}
    (stack fuel : nat) (other : LinkedList) (w : World T) (ns : list (loc * T)) :
  chain (heap w) (ptrHead other) ns → length ns ≤ fuel →
  ∃ this w' ms,
    LinkedList_copy stack fuel other w = Normal (this, other) w' ∧
    chain (heap w') (ptrHead this) ms ∧
    ms.*2 = ns.*2 ∧
    chain (heap w') (ptrHead other) ns ∧
    (∀ l, l ∈ ms.*1 → (l ∉ dom (heap w)) ∧ (l ∉ ns.*1)) ∧
    ∀ (muts : list (mutation T)) (stack' : nat),
      (∃ this2 w2 ms2,
         mutate_all (S stack') muts this w' = Normal this2 w2 ∧
         chain (heap w2) (ptrHead this2) ms2 ∧
         ms2.*2 = foldl mutated ms.*2 muts ∧
         chain (heap w2) (ptrHead other) ns) ∧
      (∃ other2 w2 ns2,
         mutate_all (S stack') muts other w' = Normal other2 w2 ∧
         chain (heap w2) (ptrHead other2) ns2 ∧
         ns2.*2 = foldl mutated ns.*2 muts ∧
         chain (heap w2) (ptrHead this) ms).
Proof.
  intros Hns Hfuel.
  destruct (LinkedList_copy_chain stack fuel other w ns Hns Hfuel)
    as (this & w' & ms & Hrun & Hms & Hvs & Hnew & Hold & _).
  assert (Hns' : chain (heap w') (ptrHead other) ns).
  { apply (chain_agree (heap w)); [|done].
    intros l Hl. apply Hold. exact (chain_dom _ _ _ _ Hns Hl). }
  assert (Hdisj : ∀ l, l ∈ ms.*1 → l ∉ ns.*1).
  { intros l Hl Hin. apply (Hnew l Hl). exact (chain_dom _ _ _ _ Hns Hin). }
  exists this, w', ms. repeat (split; [done|]).
  split; [by auto|]. intros muts stack'. split.
  - destruct (mutate_all_frame stack' muts this other w' ms ns Hms Hns' Hdisj)
      as (this2 & w2 & ms2 & Hmut & Hch2 & Hvs2 & Hoth & _).
    by exists this2, w2, ms2.
  - destruct (mutate_all_frame stack' muts other this w' ns ms Hns' Hms)
      as (other2 & w2 & ns2 & Hmut & Hch2 & Hvs2 & Hoth & _).
    { intros l Hl Hin. by apply (Hdisj l). }
    by exists other2, w2, ns2.
Qed.

Lemma LinkedList_copy_spec_witness :
  ∃ this w' ms,
    LinkedList_copy 0 3 sample_list sample_world = Normal (this, sample_list) w' ∧
    chain (heap w') (ptrHead this) ms ∧
    ms.*2 = sample_nodes.*2 ∧
    chain (heap w') (ptrHead sample_list) sample_nodes ∧
    (∀ l, l ∈ ms.*1 → (l ∉ dom (heap sample_world)) ∧ (l ∉ sample_nodes.*1)) ∧
    ∀ (muts : list (mutation int)) (stack' : nat),
      (∃ this2 w2 ms2,
         mutate_all (S stack') muts this w' = Normal this2 w2 ∧
         chain (heap w2) (ptrHead this2) ms2 ∧
         ms2.*2 = foldl mutated ms.*2 muts ∧
         chain (heap w2) (ptrHead sample_list) sample_nodes) ∧
      (∃ other2 w2 ns2,
         mutate_all (S stack') muts sample_list w' = Normal other2 w2 ∧
         chain (heap w2) (ptrHead other2) ns2 ∧
         ns2.*2 = foldl mutated sample_nodes.*2 muts ∧
         chain (heap w2) (ptrHead this) ms).
Proof.
  apply (LinkedList_copy_spec 0 3 sample_list sample_world sample_nodes).
  - simpl. repeat (split || eexists); reflexivity.
  - simpl. lia.
Defined.

(** C9. Copy construction leaves its source alone: the argument object
    comes back unchanged, its chain is the one it had (same nodes, same
    elements, same length), every cell that was allocated before holds
    what it held, and nothing is written to [std::cout]. *)
Theorem LinkedList_copy_source_unchanged {T} `{Insertable T}
    (stack fuel : nat) (other : LinkedList) (w : World T) (ns : list (loc * T)) :
  chain (heap w) (ptrHead other) ns → length ns ≤ fuel →
  ∃ this other' w',
    LinkedList_copy stack fuel other w = Normal (this, other') w' ∧
    other' = other ∧
    chain (heap w') (ptrHead other') ns ∧
    (∀ l, l ∈ dom (heap w) → heap w' !! l = heap w !! l) ∧
    cout w' = cout w.
Proof.
  intros Hns Hfuel.
  destruct (LinkedList_copy_chain stack fuel other w ns Hns Hfuel)
    as (this & w' & ms & Hrun & _ & _ & _ & Hold & Hcout).
  exists this, other, w'. repeat (split; [done|]). split; [|done].
  apply (chain_agree (heap w)); [|done].
  intros l Hl. apply Hold. exact (chain_dom _ _ _ _ Hns Hl).
Qed.

Lemma LinkedList_copy_source_unchanged_witness :
  ∃ this other' w',
    LinkedList_copy 0 3 sample_list sample_world = Normal (this, other') w' ∧
    other' = sample_list ∧
    chain (heap w') (ptrHead other') sample_nodes ∧
    (∀ l, l ∈ dom (heap sample_world) → heap w' !! l = heap sample_world !! l) ∧
    cout w' = cout sample_world.
Proof.
  apply (LinkedList_copy_source_unchanged 0 3 sample_list sample_world
           sample_nodes).
  - simpl. repeat (split || eexists); reflexivity.
  - simpl. lia.
Defined.

(** C10. Copy construction from an empty list allocates nothing and returns
    an empty list: its head is null, [peek] on it throws, and [print]
    writes the end marker alone. *)
Theorem LinkedList_copy_empty {T} `{Insertable T}
    (stack fuel fuel' : nat) (w : World T) (os : string) :
  ∃ this,
    LinkedList_copy stack fuel (mkList None) w =
      Normal (this, mkList None) w ∧
    ptrHead this = None ∧
    peek this w =
      Raised (out_of_range "Empty list: Attempt to dereference a NULL pointer") w ∧
    print fuel' this os w = Normal (os +:+ "NULL" +:+ endl) w.
Proof.
  exists (mkList None). split; [by destruct fuel|]. split; [done|].
  split; [done|]. by destruct fuel'.
Qed.

(** C6. Move construction hands the source's chain over as it is: the new
    list holds the same nodes, hence the same elements in the same order,
    and no cell of the heap is touched.  The source is left with a null
    head: [peek] on it throws, and it behaves as an empty list ([pop] and
    [clean] return at once, [print] writes the end marker alone, a [push]
    starts a new chain without disturbing the one moved away). *)
Theorem LinkedList_move_spec {T} `{Insertable T}
    (stack fuel : nat) (other : LinkedList) (w : World T) (ns : list (loc * T))
    (os : string) :
  chain (heap w) (ptrHead other) ns →
  ∃ this other',
    LinkedList_move stack other w = Normal (this, other') w ∧
    chain (heap w) (ptrHead this) ns ∧
    ptrHead other' = None ∧
    chain (heap w) (ptrHead other') [] ∧
    peek other' w =
      Raised (out_of_range "Empty list: Attempt to dereference a NULL pointer") w ∧
    pop stack other' w = Normal other' w ∧
    clean stack fuel other' w = Normal other' w ∧
    print fuel other' os w = Normal (os +:+ "NULL" +:+ endl) w ∧
    ∀ v, ∃ other2 w2,
      push stack v other' w = Normal other2 w2 ∧
      peek other2 w2 = Normal v w2 ∧
      chain (heap w2) (ptrHead this) ns.
Proof.
  intros Hns. exists (mkList (ptrHead other)), (mkList None).
  split; [done|]. split; [done|]. split; [done|]. split; [done|].
  split; [done|]. split; [done|]. split; [by destruct fuel|].
  split; [by destruct fuel|].
  intros v. eexists _, _. split; [apply push_eq|]. split.
  - eapply peek_eq. simpl. apply lookup_insert_eq.
  - simpl. apply chain_insert; [|done]. by eapply chain_fresh.
Qed.

Lemma LinkedList_move_spec_witness :
  ∃ this other',
    LinkedList_move 0 sample_list sample_world = Normal (this, other') sample_world ∧
    chain (heap sample_world) (ptrHead this) sample_nodes ∧
    ptrHead other' = None ∧
    chain (heap sample_world) (ptrHead other') [] ∧
    peek other' sample_world =
      Raised (out_of_range "Empty list: Attempt to dereference a NULL pointer")
        sample_world ∧
    pop 0 other' sample_world = Normal other' sample_world ∧
    clean 0 0 other' sample_world = Normal other' sample_world ∧
    print 0 other' "" sample_world = Normal ("" +:+ "NULL" +:+ endl) sample_world ∧
    ∀ v, ∃ other2 w2,
      push 0 v other' sample_world = Normal other2 w2 ∧
      peek other2 w2 = Normal v w2 ∧
      chain (heap w2) (ptrHead this) sample_nodes.
Proof.
  apply (LinkedList_move_spec 0 0 sample_list sample_world sample_nodes "").
  simpl. repeat (split || eexists); reflexivity.
Defined.

(** C8. The scenario of the driver: after pushing 0, 1, ..., 9 onto a list
    created empty, [print] writes the line
    [9 -> 8 -> 7 -> 6 -> 5 -> 4 -> 3 -> 2 -> 1 -> 0 -> NULL]; after three
    pops it writes [6 -> 5 -> 4 -> 3 -> 2 -> 1 -> 0 -> NULL] and [peek]
    returns 6.  On an empty list [print] writes the end marker alone.  Each
    line is ended by [std::endl].  [print] never changes the state. *)
Theorem print_scenario (stack fuel : nat) (w : World int) (os : string) :
  ∃ l1 w1 l2 w2,
    push_all stack [0; 1; 2; 3; 4; 5; 6; 7; 8; 9]%Z LinkedList_default w =
      Normal l1 w1 ∧
    print (10 + fuel) l1 os w1 =
      Normal
        (os +:+ "9 -> 8 -> 7 -> 6 -> 5 -> 4 -> 3 -> 2 -> 1 -> 0 -> NULL" +:+ endl)
        w1 ∧
    pop_n (S stack) 3 l1 w1 = Normal l2 w2 ∧
    print (7 + fuel) l2 os w2 =
      Normal (os +:+ "6 -> 5 -> 4 -> 3 -> 2 -> 1 -> 0 -> NULL" +:+ endl) w2 ∧
    peek l2 w2 = Normal 6%Z w2 ∧
    print fuel LinkedList_default os w = Normal (os +:+ "NULL" +:+ endl) w ∧
    ∀ fuel' this os' (w0 : World int),
      match print fuel' this os' w0 with
      | Normal _ w0' => w0' = w0
      | Raised _ _ => False
      | Fault _ => True
      end.
Proof.
  destruct (push_all_chain stack [0; 1; 2; 3; 4; 5; 6; 7; 8; 9]%Z
              LinkedList_default w [])
    as (l1 & w1 & ms & Hrun & Hch & Hvs & _); [done|].
  rewrite app_nil_r in Hch.
  change (ms.*2 = [9; 8; 7; 6; 5; 4; 3; 2; 1; 0]%Z) in Hvs.
  assert (Hlen : length ms = 10) by (by rewrite <- (length_fmap snd ms), Hvs).
  pose proof Hch as Hsplit. rewrite <- (take_drop 3 ms) in Hsplit.
  destruct (pop_n_chain stack l1 w1 (take 3 ms) (drop 3 ms) Hsplit)
    as (l2 & Hpops & Hch2).
  rewrite length_take, Hlen in Hpops. change (3 `min` 10) with 3 in Hpops.
  assert (Hvs2 : (drop 3 ms).*2 = [6; 5; 4; 3; 2; 1; 0]%Z).
  { by rewrite fmap_drop, Hvs. }
  set (w2 := mkWorld (released (take 3 ms).*1 (heap w1))
               (cout w1 +:+ destroy_log (take 3 ms).*2)) in Hpops.
  change (chain (heap w2) (ptrHead l2) (drop 3 ms)) in Hch2.
  exists l1, w1, l2, w2. split; [done|]. split.
  { rewrite (print_chain _ _ os _ ms Hch); [|lia]. rewrite Hvs. done. }
  split; [exact Hpops|]. split.
  { rewrite (print_chain _ _ os _ _ Hch2); [|rewrite length_drop; lia].
    rewrite Hvs2. done. }
  split.
  { destruct (drop 3 ms) as [|[l v] rest]; [done|].
    simpl in Hvs2. injection Hvs2 as -> _.
    destruct l2 as [p]. destruct Hch2 as [Hp (next & Hl & _)].
    simpl in Hp, Hl. subst p. by apply (peek_eq _ _ next). }
  split; [by destruct fuel|].
  intros fuel' this os' w0. apply print_pure.
Qed.

(** ** Further properties of the code *)

Section Laws.
Context {T : Type} `{Insertable T}.
Implicit Types (w : World T) (l : loc) (ns ms : list (loc * T)).

Lemma bind_assoc_at {A B C} (m : M T A) (f : A → M T B) (g : B → M T C) w :
  bind (bind m f) g w = bind m (λ a, bind (f a) g) w.
Proof. unfold bind. by destruct (m w). Qed.

Lemma bind_ret_at {A} (m : M T A) w : bind m ret w = m w.
Proof. unfold bind, ret. by destruct (m w). Qed.

Lemma bind_ext_at {A B} (m : M T A) (f g : A → M T B) w :
  (∀ a w', f a w' = g a w') → bind m f w = bind m g w.
Proof. intros Hfg. unfold bind. destruct (m w); [apply Hfg | done | done]. Qed.

(** The last of [n + 1] pops can be taken apart from the first [n]. *)
Lemma pop_n_succ_r stack n this w :
  pop_n stack (S n) this w = bind (pop_n stack n this) (pop stack) w.
Proof.
  revert this w. induction n as [|n IH]; intros this w.
  - simpl. unfold bind, ret. by destruct (pop stack this w).
  - change (pop_n stack (S (S n)) this)
      with (bind (pop stack this) (pop_n stack (S n))).
    change (pop_n stack (S n) this)
      with (bind (pop stack this) (pop_n stack n)).
    rewrite bind_assoc_at. apply bind_ext_at. intros this1 w1. apply IH.
Qed.

Lemma pop_n_empty stack n w :
  pop_n stack n (mkList None) w = Normal (mkList None) w.
Proof. induction n as [|n IH]; [done|]. simpl. unfold bind. simpl. exact IH. Qed.

(** Popping at least as often as there are nodes takes the whole chain
    away. *)
Lemma pop_n_all stack n this w ns :
  chain (heap w) (ptrHead this) ns → length ns ≤ n →
  pop_n (S stack) n this w =
    Normal (mkList None)
      (mkWorld (released ns.*1 (heap w)) (cout w +:+ destroy_log ns.*2)).
Proof.
  revert n this w. induction ns as [|[l v] ns IH]; intros n [p] w; simpl.
  - intros -> _. rewrite pop_n_empty, string_app_nil_r. by destruct w.
  - intros [-> (next & Hl & Hns)] Hn.
    destruct n as [|n]; [lia|]. simpl.
    rewrite (bind_normal _ _ _ _ _ (pop_eq stack _ _ _ _ Hl)).
    assert (Hnd : l ∉ ns.*1).
    { assert (Hall : chain (heap w) (Some l) ((l, v) :: ns)) by (simpl; eauto).
      apply chain_NoDup in Hall. by inversion Hall. }
    rewrite (IH n (mkList next)); simpl; [| by apply chain_delete | lia].
    by rewrite released_delete, !string_app_assoc.
Qed.

End Laws.

(** X1. Whatever the list and the state, a [peek] right after [push(v)]
    returns [v]. *)
Theorem push_then_peek {T} `{Insertable T}
    (stack : nat) (v : T) (this : LinkedList) (w : World T) :
  ∃ this' w',
    push stack v this w = Normal this' w' ∧
    peek this' w' = Normal v w'.
Proof.
  eexists _, _. split; [apply push_eq|].
  eapply peek_eq. simpl. apply lookup_insert_eq.
Qed.

(** X2. Pushing any values onto any list and popping as many times gives
    back the very list object and the very heap there were before, with
    one destructor line written per value, last pushed first. *)
Theorem push_all_pop_n_restores {T} `{Insertable T}
    (stack stack' : nat) (vs : list T) (this : LinkedList) (w : World T) :
  ∃ this1 w1,
    push_all stack vs this w = Normal this1 w1 ∧
    pop_n (S stack') (length vs) this1 w1 =
      Normal this (mkWorld (heap w) (cout w +:+ destroy_log (reverse vs))).
Proof.
  revert this w. induction vs as [|v vs IH]; intros this w.
  - exists this, w. split; [done|]. simpl. unfold ret.
    rewrite string_app_nil_r. by destruct w.
  - simpl push_all. rewrite (bind_normal _ _ _ _ _ (push_eq stack v this w)).
    set (l := fresh (dom (heap w))).
    destruct (IH (mkList (Some l))
                (mkWorld (<[l := mkNode v (ptrHead this)]> (heap w)) (cout w)))
      as (this1 & w1 & Hrun & Hpops).
    exists this1, w1. split; [done|].
    change (length (v :: vs)) with (S (length vs)).
    rewrite pop_n_succ_r, (bind_normal _ _ _ _ _ Hpops).
    erewrite pop_eq; last first.
    { simpl. apply lookup_insert_eq. }
    simpl. rewrite delete_insert_eq, delete_id; last first.
    { apply not_elem_of_dom, is_fresh. }
    rewrite reverse_cons, destroy_log_app. simpl.
    rewrite !string_app_assoc, string_app_nil_r. by destruct this.
Qed.

(** X3. A well-formed list is a stack: any sequence of pushes and pops
    returns normally and leaves a well-formed list whose elements are what
    the same sequence gives on a plain list ([pop] on an empty list doing
    nothing).  The free store gains and loses exactly one node per element
    gained and lost, and no cell outside the list is touched. *)
Theorem mutate_all_stack {T} `{Insertable T}
    (stack : nat) (muts : list (mutation T)) (this : LinkedList)
    (w : World T) (ns : list (loc * T)) :
  chain (heap w) (ptrHead this) ns →
  ∃ this' w' ns',
    mutate_all (S stack) muts this w = Normal this' w' ∧
    chain (heap w') (ptrHead this') ns' ∧
    ns'.*2 = foldl mutated ns.*2 muts ∧
    size (heap w') + length ns = size (heap w) + length ns' ∧
    ∀ l, l ∈ dom (heap w) → l ∉ ns.*1 → heap w' !! l = heap w !! l.
Proof.
  revert this w ns. induction muts as [|[v|] muts IH]; intros this w ns Hch.
  - exists this, w, ns. done.
  - simpl. rewrite (bind_normal _ _ _ _ _ (push_eq (S stack) v this w)).
    set (l := fresh (dom (heap w))).
    assert (Hfresh : l ∉ dom (heap w)) by apply is_fresh.
    assert (Hl : l ∉ ns.*1) by (by eapply chain_fresh).
    destruct (IH (mkList (Some l))
                (mkWorld (<[l := mkNode v (ptrHead this)]> (heap w)) (cout w))
                ((l, v) :: ns))
      as (this' & w' & ns' & Hrun & Hch' & Hvs & Hsize & Hframe).
    { apply (chain_cons _ _ _ (ptrHead this)); [apply lookup_insert_eq|].
      by apply chain_insert. }
    exists this', w', ns'. split; [done|]. split; [done|]. split; [done|].
    simpl in Hsize, Hframe. split.
    + rewrite map_size_insert_None in Hsize by (by apply not_elem_of_dom).
      lia.
    + intros l' Hdom Hnin. rewrite Hframe.
      * apply lookup_insert_ne. intros ->. done.
      * rewrite dom_insert_L. by apply elem_of_union_r.
      * apply not_elem_of_cons. split; [|done]. intros ->. done.
  - destruct ns as [|[l v] ns].
    + destruct this as [p]. simpl in Hch. subst p.
      simpl. rewrite (bind_normal _ _ _ _ _ (pop_empty (S stack) w)).
      apply (IH (mkList None) w []). done.
    + pose proof (chain_NoDup _ _ _ Hch) as Hnd.
      simpl in Hnd. apply NoDup_cons in Hnd as [Hnin _].
      destruct this as [p]. destruct Hch as [Hp (next & Hl & Hns)].
      simpl in Hp, Hl, Hns. subst p.
      simpl. rewrite (bind_normal _ _ _ _ _ (pop_eq stack _ _ _ _ Hl)).
      destruct (IH (mkList next)
                  (mkWorld (delete l (heap w))
                     (cout w +:+ "Destroying Node with data " +:+
                        insert_to v +:+ endl)) ns)
        as (this' & w' & ns' & Hrun & Hch' & Hvs & Hsize & Hframe).
      { by apply chain_delete. }
      exists this', w', ns'. split; [done|]. split; [done|]. split; [done|].
      simpl in Hsize, Hframe. split.
      * assert (Hdel : size (delete l (heap w)) = pred (size (heap w))).
        { apply map_size_delete_Some. eauto. }
        assert (Hpos : size (heap w) ≠ 0).
        { intros Hz. apply map_size_empty_inv in Hz.
          rewrite Hz, lookup_empty in Hl. done. }
        simpl. lia.
      * intros l' Hdom Hnin'.
        apply not_elem_of_cons in Hnin' as [Hne Hnin'].
        rewrite Hframe; [by apply lookup_delete_ne | | done].
        rewrite dom_delete_L. apply elem_of_difference. split; [done|].
        by apply not_elem_of_singleton.
Qed.

Lemma mutate_all_stack_witness :
  ∃ this' w' ns',
    mutate_all 1 [Pop; Push 5%Z; Pop; Pop] sample_list sample_world =
      Normal this' w' ∧
    chain (heap w') (ptrHead this') ns' ∧
    ns'.*2 = foldl mutated sample_nodes.*2 [Pop; Push 5%Z; Pop; Pop] ∧
    size (heap w') + length sample_nodes =
      size (heap sample_world) + length ns' ∧
    ∀ l, l ∈ dom (heap sample_world) → l ∉ sample_nodes.*1 →
         heap w' !! l = heap sample_world !! l.
Proof.
  apply (mutate_all_stack 0 [Pop; Push 5%Z; Pop; Pop] sample_list sample_world
           sample_nodes).
  simpl. repeat (split || eexists); reflexivity.
Defined.

(** X4. [clean] is [pop] repeated: on a well-formed list, popping at least
    as many times as there are nodes ends in the same list and the same
    state as [clean]. *)
Theorem clean_is_pop_n {T} `{Insertable T}
    (stack n : nat) (this : LinkedList) (w : World T) (ns : list (loc * T)) :
  chain (heap w) (ptrHead this) ns → length ns ≤ n →
  pop_n (S stack) n this w = clean (S stack) n this w.
Proof.
  intros Hch Hn.
  by rewrite (pop_n_all _ _ _ _ ns), (clean_chain _ _ _ _ ns).
Qed.

Lemma clean_is_pop_n_witness :
  pop_n 1 5 sample_list sample_world = clean 1 5 sample_list sample_world.
Proof.
  apply (clean_is_pop_n 0 5 sample_list sample_world sample_nodes).
  - simpl. repeat (split || eexists); reflexivity.
  - simpl. lia.
Defined.

(** X5. On a well-formed list, [print] and [operator<<] append to the
    stream every element from head to tail, each followed by [" -> "], and
    then [NULL] and the end of line; the state is left as it was. *)
Theorem print_general {T} `{Insertable T}
    (fuel : nat) (this : LinkedList) (os : string) (w : World T)
    (ns : list (loc * T)) :
  chain (heap w) (ptrHead this) ns → length ns ≤ fuel →
  print fuel this os w =
    Normal (os +:+ arrows ns.*2 +:+ "NULL" +:+ endl) w ∧
  put_list fuel os this w =
    Normal (os +:+ arrows ns.*2 +:+ "NULL" +:+ endl) w.
Proof. intros Hch Hfuel. split; by apply print_chain. Qed.

Lemma print_general_witness :
  print 3 sample_list "list: " sample_world =
    Normal ("list: " +:+ arrows sample_nodes.*2 +:+ "NULL" +:+ endl)
      sample_world ∧
  put_list 3 "list: " sample_list sample_world =
    Normal ("list: " +:+ arrows sample_nodes.*2 +:+ "NULL" +:+ endl)
      sample_world.
Proof.
  apply (print_general 3 sample_list "list: " sample_world sample_nodes).
  - simpl. repeat (split || eexists); reflexivity.
  - simpl. lia.
Defined.

(** X6. What the iteration in [clean] avoids: deleting the head of a chain
    whose links are intact nests one [~Node()] per node.  With fewer
    frames than nodes it overflows the stack; with as many it frees the
    whole chain, the destructor lines written head first. *)
Theorem delete_node_depth {T} `{Insertable T}
    (stack : nat) (l : loc) (w : World T) (ns : list (loc * T)) :
  chain (heap w) (Some l) ns →
  (stack < length ns → delete_node stack l w = Fault StackOverflow) ∧
  (length ns ≤ stack →
   delete_node stack l w =
     Normal tt
       (mkWorld (released ns.*1 (heap w)) (cout w +:+ destroy_log ns.*2))).
Proof.
  intros Hch. split; intros Hstack.
  - by apply (delete_node_overflow _ _ _ ns).
  - by apply delete_node_cascade.
Qed.

Lemma delete_node_depth_witness :
  delete_node 2 3%positive sample_world = Fault StackOverflow ∧
  delete_node 3 3%positive sample_world =
    Normal tt
      (mkWorld (released sample_nodes.*1 (heap sample_world))
         (cout sample_world +:+ destroy_log sample_nodes.*2)).
Proof.
  split.
  - apply (proj1 (delete_node_depth 2 3%positive sample_world sample_nodes
                    ltac:(simpl; repeat (split || eexists); reflexivity))).
    simpl. lia.
  - apply (proj2 (delete_node_depth 3 3%positive sample_world sample_nodes
                    ltac:(simpl; repeat (split || eexists); reflexivity))).
    simpl. lia.
Defined.

Section Destructor.
Context {T : Type} `{Insertable T}.

Lemma LinkedList_destroy_chain stack fuel this (w : World T) ns :
  chain (heap w) (ptrHead this) ns → length ns ≤ fuel →
  LinkedList_destroy (S stack) fuel this w =
    Normal tt
      (mkWorld (released ns.*1 (heap w)) (cout w +:+ destroy_log ns.*2)).
Proof.
  intros Hch Hfuel. unfold LinkedList_destroy.
  by rewrite (bind_normal _ _ _ _ _ (clean_chain stack _ _ _ _ Hch Hfuel)).
Qed.

Lemma LinkedList_destroy_empty stack fuel (w : World T) :
  LinkedList_destroy stack fuel (mkList None) w = Normal tt w.
Proof. unfold LinkedList_destroy. by destruct fuel. Qed.
End Destructor.

(** X7. The destructor of a well-formed list, given one turn of the loop
    per node, frees exactly the nodes of the list, writes one line per
    node head first, and needs a single destructor frame however long the
    list is. *)
Theorem LinkedList_destroy_spec {T} `{Insertable T}
    (stack fuel : nat) (this : LinkedList) (w : World T) (ns : list (loc * T)) :
  chain (heap w) (ptrHead this) ns → length ns ≤ fuel →
  ∃ w',
    LinkedList_destroy (S stack) fuel this w = Normal tt w' ∧
    LinkedList_destroy 1 fuel this w = Normal tt w' ∧
    cout w' = cout w +:+ destroy_log ns.*2 ∧
    ∀ l, heap w' !! l = if decide (l ∈ ns.*1) then None else heap w !! l.
Proof.
  intros Hch Hfuel. eexists.
  split; [by apply LinkedList_destroy_chain|].
  split; [by apply LinkedList_destroy_chain|]. split; [done|].
  intros l. simpl. apply lookup_released.
Qed.

Lemma LinkedList_destroy_spec_witness :
  ∃ w',
    LinkedList_destroy 1 3 sample_list sample_world = Normal tt w' ∧
    LinkedList_destroy 1 3 sample_list sample_world = Normal tt w' ∧
    cout w' = cout sample_world +:+ destroy_log sample_nodes.*2 ∧
    ∀ l, heap w' !! l =
         if decide (l ∈ sample_nodes.*1) then None else heap sample_world !! l.
Proof.
  apply (LinkedList_destroy_spec 0 3 sample_list sample_world sample_nodes).
  - simpl. repeat (split || eexists); reflexivity.
  - simpl. lia.
Defined.

Section CopyFootprint.
Context {T : Type} `{Insertable T}.
Implicit Types (w : World T) (l : loc) (ns ms : list (loc * T)).

(** One turn of the copy loop behind the head of the new list. *)
Lemma copy_loop_tail_step stack fuel hd curr x c v next w :
  heap w !! curr = Some (mkNode x None) →
  heap w !! c = Some (mkNode v next) → curr ≠ c →
  copy_loop stack (S fuel) (Some hd) (Some curr) (Some c) w =
    copy_loop stack fuel (Some hd) (Some (fresh (dom (heap w)))) next
      (mkWorld
         (<[curr := mkNode x (Some (fresh (dom (heap w))))]>
            (<[fresh (dom (heap w)) := mkNode v None]> (heap w)))
         (cout w)).
Proof.
  intros Hcurr Hc Hne.
  set (l := fresh (dom (heap w))).
  assert (Hfresh : l ∉ dom (heap w)) by apply is_fresh.
  assert (Hlc : l ≠ c).
  { intros ->. apply Hfresh. apply elem_of_dom. eauto. }
  assert (Hlcurr : l ≠ curr).
  { intros ->. apply Hfresh. apply elem_of_dom. eauto. }
  simpl. rewrite (bind_normal _ _ _ _ _ (load_ok _ _ _ Hc)). simpl.
  unfold bind at 1. unfold make_unique at 1. fold l.
  erewrite bind_normal; last first.
  { erewrite bind_normal; last first.
    { apply (assign_ptrNext_ok _ _ x). simpl. by rewrite lookup_insert_ne. }
    simpl. erewrite bind_normal; last first.
    { apply load_ok. simpl. apply lookup_insert_eq. }
    done. }
  simpl. erewrite bind_normal; last first.
  { apply load_ok. simpl. rewrite !lookup_insert_ne by done. exact Hc. }
  done.
Qed.

(** The loop behind the head, with its whole footprint: besides the cells
    of the new nodes, nothing is allocated. *)
Lemma copy_loop_tail_exact stack fuel hd curr x cursor w ns :
  heap w !! curr = Some (mkNode x None) →
  chain (heap w) cursor ns → curr ∉ ns.*1 → length ns ≤ fuel →
  ∃ w' ms,
    copy_loop stack fuel (Some hd) (Some curr) cursor w = Normal (Some hd) w' ∧
    chain (heap w') (Some curr) ((curr, x) :: ms) ∧
    (∀ l, l ∈ dom (heap w) → l ≠ curr → heap w' !! l = heap w !! l) ∧
    (∀ l, l ∉ dom (heap w) → l ∉ ms.*1 → heap w' !! l = None).
Proof.
  revert fuel curr x cursor w.
  induction ns as [|[c v] ns IH]; intros fuel curr x cursor w Hcurr Hns Hnin Hfuel.
  - simpl in Hns. subst cursor. exists w, []. split; [by destruct fuel|].
    split; [simpl; eauto|]. split; [done|].
    intros l Hl _. by apply not_elem_of_dom.
  - destruct Hns as [-> (next & Hc & Hns)]. simpl in Hc, Hns, Hnin, Hfuel.
    destruct fuel as [|fuel]; [lia|].
    apply not_elem_of_cons in Hnin as [Hcc Hnin].
    rewrite (copy_loop_tail_step _ _ _ _ x c v next) by done.
    set (l := fresh (dom (heap w))).
    assert (Hfresh : l ∉ dom (heap w)) by apply is_fresh.
    assert (Hlcurr : l ≠ curr).
    { intros ->. apply Hfresh. apply elem_of_dom. eauto. }
    assert (Hlns : l ∉ ns.*1).
    { intros Hin. apply Hfresh. exact (chain_dom _ _ _ _ Hns Hin). }
    set (h2 := <[curr := mkNode x (Some l)]> (<[l := mkNode v None]> (heap w))).
    destruct (IH fuel l v next (mkWorld h2 (cout w)))
      as (w' & ms & Hrun & Hch & Hold & Hout).
    { simpl. unfold h2. rewrite lookup_insert_ne by done.
      apply lookup_insert_eq. }
    { simpl. unfold h2. apply chain_insert; [done|]. by apply chain_insert. }
    { done. }
    { lia. }
    simpl in Hold, Hout.
    assert (Hdom2 : ∀ l', l' ∈ dom (heap w) → l' ∈ dom h2).
    { intros l' Hl'. unfold h2. rewrite !dom_insert_L.
      by do 2 apply elem_of_union_r. }
    exists w', ((l, v) :: ms). split; [done|]. split.
    { split; [done|]. exists (Some l). split; [|done]. simpl.
      rewrite Hold.
      - unfold h2. apply lookup_insert_eq.
      - apply Hdom2. apply elem_of_dom. eauto.
      - done. }
    split.
    + intros l' Hl' Hne. rewrite Hold.
      * unfold h2. rewrite !lookup_insert_ne; [done | | done].
        intros ->. done.
      * by apply Hdom2.
      * intros ->. done.
    + intros l' Hl' Hnin'. apply not_elem_of_cons in Hnin' as [Hne Hnin'].
      apply Hout; [|done]. unfold h2. rewrite !dom_insert_L.
      intros [Hin|[Hin|Hin]%elem_of_union]%elem_of_union.
      * apply elem_of_singleton in Hin. subst l'.
        apply Hl'. apply elem_of_dom. eauto.
      * apply elem_of_singleton in Hin. done.
      * done.
Qed.

(** The first turn, which makes the head of the new list. *)
Lemma copy_loop_head_step stack fuel c v next w :
  heap w !! c = Some (mkNode v next) →
  copy_loop stack (S fuel) None None (Some c) w =
    copy_loop stack fuel (Some (fresh (dom (heap w))))
      (Some (fresh (dom (heap w)))) next
      (mkWorld (<[fresh (dom (heap w)) := mkNode v None]> (heap w)) (cout w)).
Proof.
  intros Hc.
  assert (Hlc : fresh (dom (heap w)) ≠ c).
  { intros Heq. apply (is_fresh (dom (heap w))). rewrite Heq.
    apply elem_of_dom. eauto. }
  simpl. rewrite (bind_normal _ _ _ _ _ (load_ok _ _ _ Hc)). simpl.
  unfold bind at 1. unfold make_unique at 1.
  unfold bind at 1. simpl.
  erewrite bind_normal; last first.
  { apply load_ok. simpl. rewrite lookup_insert_ne by done. exact Hc. }
  done.
Qed.

Lemma copy_loop_chain_exact stack fuel cursor w ns :
  chain (heap w) cursor ns → length ns ≤ fuel →
  ∃ p w' ms,
    copy_loop stack fuel None None cursor w = Normal p w' ∧
    chain (heap w') p ms ∧
    (∀ l, l ∉ dom (heap w) → l ∉ ms.*1 → heap w' !! l = None).
Proof.
  intros Hns Hfuel. destruct ns as [|[c v] ns].
  - simpl in Hns. subst cursor. exists None, w, []. split; [by destruct fuel|].
    split; [done|]. intros l Hl _. by apply not_elem_of_dom.
  - destruct Hns as [-> (next & Hc & Hns)]. simpl in Hc, Hns, Hfuel.
    destruct fuel as [|fuel]; [lia|].
    rewrite (copy_loop_head_step _ _ _ v next) by done.
    set (l0 := fresh (dom (heap w))).
    assert (Hfresh : l0 ∉ dom (heap w)) by apply is_fresh.
    assert (Hl0ns : l0 ∉ ns.*1).
    { intros Hin. apply Hfresh. exact (chain_dom _ _ _ _ Hns Hin). }
    destruct (copy_loop_tail_exact stack fuel l0 l0 v next
                (mkWorld (<[l0 := mkNode v None]> (heap w)) (cout w)) ns)
      as (w' & ms & Hrun & Hch & _ & Hout).
    { simpl. apply lookup_insert_eq. }
    { simpl. by apply chain_insert. }
    { done. }
    { lia. }
    exists (Some l0), w', ((l0, v) :: ms). split; [done|]. split; [done|].
    intros l Hl Hnin. apply not_elem_of_cons in Hnin as [Hne Hnin].
    apply Hout; [|done]. simpl. rewrite dom_insert_L.
    intros [Hin|Hin]%elem_of_union; [|done].
    apply elem_of_singleton in Hin. done.
Qed.

(** The constructor with its whole footprint: taking the new nodes away
    again gives the heap there was. *)
Lemma LinkedList_copy_exact stack fuel list w ns :
  chain (heap w) (ptrHead list) ns → length ns ≤ fuel →
  ∃ this w' ms,
    LinkedList_copy stack fuel list w = Normal (this, list) w' ∧
    chain (heap w') (ptrHead this) ms ∧
    ms.*2 = ns.*2 ∧
    cout w' = cout w ∧
    released ms.*1 (heap w') = heap w.
Proof.
  intros Hns Hfuel.
  destruct (LinkedList_copy_chain stack fuel list w ns Hns Hfuel)
    as (this & w' & ms & Hrun & Hms & Hvs & Hnew & Hold & Hcout).
  destruct (copy_loop_chain_exact stack fuel _ w ns Hns Hfuel)
    as (p & w2 & ms2 & Hrun2 & Hms2 & Hout).
  unfold LinkedList_copy in Hrun.
  rewrite (bind_normal _ _ _ _ _ Hrun2) in Hrun.
  unfold bind, ret in Hrun. simpl in Hrun. injection Hrun as <- <-.
  simpl in Hms. pose proof (chain_inj _ _ _ _ Hms Hms2) as ->.
  exists (mkList p), w2, ms2. split.
  { unfold LinkedList_copy. by rewrite (bind_normal _ _ _ _ _ Hrun2). }
  repeat (split; [done|]).
  apply map_eq. intros l. rewrite lookup_released.
  destruct (decide (l ∈ ms2.*1)) as [Hin|Hnin].
  { symmetry. apply not_elem_of_dom. by apply Hnew. }
  destruct (decide (l ∈ dom (heap w))) as [Hdom|Hndom]; [by apply Hold|].
  rewrite (proj1 (not_elem_of_dom (heap w) l) Hndom). by apply Hout.
Qed.

(** Removing distinct allocated cells lowers the size by their number. *)
Lemma size_released (ls : list loc) (h : gmap loc (Node T)) :
  NoDup ls → (∀ l, l ∈ ls → is_Some (h !! l)) →
  size (released ls h) + length ls = size h.
Proof.
  revert h. induction ls as [|l ls IH]; intros h Hnd Hall; [simpl; lia|].
  apply NoDup_cons in Hnd as [Hnin Hnd].
  change (released (l :: ls) h) with (delete l (released ls h)).
  assert (Hl : is_Some (released ls h !! l)).
  { rewrite lookup_released, decide_False by done. apply Hall. left. }
  rewrite (map_size_delete_Some _ _ Hl).
  assert (Hpos : size (released ls h) ≠ 0).
  { intros Hz. apply map_size_empty_inv in Hz.
    rewrite Hz, lookup_empty in Hl. by destruct Hl. }
  assert (Hrest : ∀ l', l' ∈ ls → is_Some (h !! l')).
  { intros l' Hl'. apply Hall. by right. }
  specialize (IH h Hnd Hrest). simpl. lia.
Qed.
End CopyFootprint.

(** X8. Copy construction allocates exactly one node per node of the
    source, and destroying the copy afterwards gives back the heap there
    was before the copy, cell for cell, the copy's elements being the ones
    named in the destructor lines. *)
Theorem LinkedList_copy_then_destroy {T} `{Insertable T}
    (stack stack' fuel : nat) (other : LinkedList) (w : World T)
    (ns : list (loc * T)) :
  chain (heap w) (ptrHead other) ns → length ns ≤ fuel →
  ∃ this w1,
    LinkedList_copy stack fuel other w = Normal (this, other) w1 ∧
    size (heap w1) = size (heap w) + length ns ∧
    LinkedList_destroy (S stack') fuel this w1 =
      Normal tt (mkWorld (heap w) (cout w +:+ destroy_log ns.*2)).
Proof.
  intros Hns Hfuel.
  destruct (LinkedList_copy_exact stack fuel other w ns Hns Hfuel)
    as (this & w1 & ms & Hrun & Hms & Hvs & Hcout & Hrel).
  assert (Hlen : length ms = length ns).
  { by rewrite <- (length_fmap snd ms), Hvs, length_fmap. }
  exists this, w1. split; [done|]. split.
  - pose proof (size_released ms.*1 (heap w1) (chain_NoDup _ _ _ Hms)) as Hsize.
    rewrite Hrel, length_fmap, Hlen in Hsize. symmetry. apply Hsize.
    intros l Hl. apply elem_of_dom. exact (chain_dom _ _ _ _ Hms Hl).
  - rewrite (LinkedList_destroy_chain stack' fuel this w1 ms Hms) by lia.
    by rewrite Hrel, Hcout, Hvs.
Qed.

Lemma LinkedList_copy_then_destroy_witness :
  ∃ this w1,
    LinkedList_copy 0 3 sample_list sample_world = Normal (this, sample_list) w1 ∧
    size (heap w1) = size (heap sample_world) + length sample_nodes ∧
    LinkedList_destroy 1 3 this w1 =
      Normal tt
        (mkWorld (heap sample_world)
           (cout sample_world +:+ destroy_log sample_nodes.*2)).
Proof.
  apply (LinkedList_copy_then_destroy 0 0 3 sample_list sample_world
           sample_nodes).
  - simpl. repeat (split || eexists); reflexivity.
  - simpl. lia.
Defined.

(** X9. After a move construction every node has one owner: destroying
    the moved-from object frees nothing, destroying the new object frees
    the chain, and the two destructions in either order end in the same
    state, each node freed once. *)
Theorem LinkedList_move_then_destroy {T} `{Insertable T}
    (stack stack' fuel : nat) (other : LinkedList) (w : World T)
    (ns : list (loc * T)) :
  chain (heap w) (ptrHead other) ns → length ns ≤ fuel →
  ∃ this other' w',
    LinkedList_move stack other w = Normal (this, other') w ∧
    w' = mkWorld (released ns.*1 (heap w)) (cout w +:+ destroy_log ns.*2) ∧
    LinkedList_destroy (S stack') fuel other' w = Normal tt w ∧
    LinkedList_destroy (S stack') fuel this w = Normal tt w' ∧
    (LinkedList_destroy (S stack') fuel other' >>
     LinkedList_destroy (S stack') fuel this) w = Normal tt w' ∧
    (LinkedList_destroy (S stack') fuel this >>
     LinkedList_destroy (S stack') fuel other') w = Normal tt w'.
Proof.
  intros Hns Hfuel.
  eexists (mkList (ptrHead other)), (mkList None), _.
  split; [done|]. split; [reflexivity|].
  pose proof (LinkedList_destroy_chain stack' fuel (mkList (ptrHead other)) w ns
                Hns Hfuel) as Hthis.
  split; [apply LinkedList_destroy_empty|]. split; [done|]. split.
  - by rewrite (bind_normal _ _ _ _ _ (LinkedList_destroy_empty _ _ w)).
  - rewrite (bind_normal _ _ _ _ _ Hthis). apply LinkedList_destroy_empty.
Qed.

Lemma LinkedList_move_then_destroy_witness :
  ∃ this other' w',
    LinkedList_move 0 sample_list sample_world =
      Normal (this, other') sample_world ∧
    w' = mkWorld (released sample_nodes.*1 (heap sample_world))
           (cout sample_world +:+ destroy_log sample_nodes.*2) ∧
    LinkedList_destroy 1 3 other' sample_world = Normal tt sample_world ∧
    LinkedList_destroy 1 3 this sample_world = Normal tt w' ∧
    (LinkedList_destroy 1 3 other' >> LinkedList_destroy 1 3 this)
      sample_world = Normal tt w' ∧
    (LinkedList_destroy 1 3 this >> LinkedList_destroy 1 3 other')
      sample_world = Normal tt w'.
Proof.
  apply (LinkedList_move_then_destroy 0 0 3 sample_list sample_world
           sample_nodes).
  - simpl. repeat (split || eexists); reflexivity.
  - simpl. lia.
Defined.

Section TwoLists.
Context {T : Type} `{Insertable T}.

Lemma calls_to_cons first (b : bool) (m : mutation T) calls :
  calls_to first ((b, m) :: calls) =
    if decide (b = first) then m :: calls_to first calls
    else calls_to first calls.
Proof.
  unfold calls_to. rewrite filter_cons. simpl.
  destruct (decide (b = first)); done.
Qed.

Lemma mutate_frame stack (m : mutation T) a b (w : World T) na nb :
  chain (heap w) (ptrHead a) na →
  chain (heap w) (ptrHead b) nb →
  (∀ l, l ∈ na.*1 → l ∉ nb.*1) →
  ∃ a' w' na',
    mutate (S stack) m a w = Normal a' w' ∧
    chain (heap w') (ptrHead a') na' ∧
    na'.*2 = mutated na.*2 m ∧
    chain (heap w') (ptrHead b) nb ∧
    (∀ l, l ∈ na'.*1 → l ∉ nb.*1).
Proof.
  intros Ha Hb Hdisj.
  destruct (mutate_all_frame stack [m] a b w na nb Ha Hb Hdisj)
    as (a' & w' & na' & Hrun & Hrest).
  exists a', w', na'. split; [|done].
  simpl in Hrun. by rewrite bind_ret_at in Hrun.
Qed.
End TwoLists.

(** X10. Two well-formed lists that share no node do not interfere: under
    any interleaving of pushes and pops on the two, each list ends
    well-formed with the elements that its own calls alone give on a plain
    list, and the two still share no node. *)
Theorem mutate_two_independent {T} `{Insertable T}
    (stack : nat) (calls : list (bool * mutation T)) (a b : LinkedList)
    (w : World T) (na nb : list (loc * T)) :
  chain (heap w) (ptrHead a) na →
  chain (heap w) (ptrHead b) nb →
  (∀ l, l ∈ na.*1 → l ∉ nb.*1) →
  ∃ a' b' w' na' nb',
    mutate_two (S stack) calls a b w = Normal (a', b') w' ∧
    chain (heap w') (ptrHead a') na' ∧
    chain (heap w') (ptrHead b') nb' ∧
    na'.*2 = foldl mutated na.*2 (calls_to true calls) ∧
    nb'.*2 = foldl mutated nb.*2 (calls_to false calls) ∧
    (∀ l, l ∈ na'.*1 → l ∉ nb'.*1).
Proof.
  revert a b w na nb.
  induction calls as [|[[|] m] calls IH]; intros a b w na nb Ha Hb Hdisj.
  - exists a, b, w, na, nb. done.
  - destruct (mutate_frame stack m a b w na nb Ha Hb Hdisj)
      as (a1 & w1 & na1 & Hrun & Ha1 & Hvs & Hb1 & Hdisj1).
    destruct (IH a1 b w1 na1 nb Ha1 Hb1 Hdisj1)
      as (a' & b' & w' & na' & nb' & Hrun' & Ha' & Hb' & Hva & Hvb & Hd).
    exists a', b', w', na', nb'. split.
    { simpl. by rewrite (bind_normal _ _ _ _ _ Hrun). }
    rewrite !calls_to_cons. simpl. rewrite Hvs in Hva. done.
  - assert (Hdisj' : ∀ l, l ∈ nb.*1 → l ∉ na.*1).
    { intros l Hl Hin. by apply (Hdisj l). }
    destruct (mutate_frame stack m b a w nb na Hb Ha Hdisj')
      as (b1 & w1 & nb1 & Hrun & Hb1 & Hvs & Ha1 & Hdisj1).
    assert (Hdisj1' : ∀ l, l ∈ na.*1 → l ∉ nb1.*1).
    { intros l Hl Hin. by apply (Hdisj1 l). }
    destruct (IH a b1 w1 na nb1 Ha1 Hb1 Hdisj1')
      as (a' & b' & w' & na' & nb' & Hrun' & Ha' & Hb' & Hva & Hvb & Hd).
    exists a', b', w', na', nb'. split.
    { simpl. by rewrite (bind_normal _ _ _ _ _ Hrun). }
    rewrite !calls_to_cons. simpl. rewrite Hvs in Hvb. done.
Qed.

Lemma mutate_two_independent_witness :
  ∃ a' b' w' na' nb',
    mutate_two 1 [(true, Pop); (false, Push 8%Z); (true, Push 5%Z); (false, Pop)]
      sample_list (mkList (Some 4%positive)) sample_world = Normal (a', b') w' ∧
    chain (heap w') (ptrHead a') na' ∧
    chain (heap w') (ptrHead b') nb' ∧
    na'.*2 =
      foldl mutated sample_nodes.*2
        (calls_to true
           [(true, Pop); (false, Push 8%Z); (true, Push 5%Z); (false, Pop)]) ∧
    nb'.*2 =
      foldl mutated [(4%positive, 7%Z)].*2
        (calls_to false
           [(true, Pop); (false, Push 8%Z); (true, Push 5%Z); (false, Pop)]) ∧
    (∀ l, l ∈ na'.*1 → l ∉ nb'.*1).
Proof.
  apply (mutate_two_independent 0
           [(true, Pop); (false, Push 8%Z); (true, Push 5%Z); (false, Pop)]
           sample_list (mkList (Some 4%positive)) sample_world
           sample_nodes [(4%positive, 7%Z)]).
  - simpl. repeat (split || eexists); reflexivity.
  - simpl. repeat (split || eexists); reflexivity.
  - simpl. intros l Hl Hin.
    apply elem_of_cons in Hin as [->|Hin]; [|by apply elem_of_nil in Hin].
    repeat (apply elem_of_cons in Hl as [Hl|Hl]; [discriminate Hl|]).
    by apply elem_of_nil in Hl.
Defined.

Section Driver.
Context {T : Type} `{Insertable T}.
Implicit Types (w : World T) (ns : list (loc * T)).

Lemma write_cout_ok s w :
  write_cout s w = Normal tt (mkWorld (heap w) (cout w +:+ s)).
Proof. done. Qed.

Lemma print_cout_chain fuel this w ns :
  chain (heap w) (ptrHead this) ns → length ns ≤ fuel →
  print_cout fuel this w =
    Normal tt (mkWorld (heap w) (cout w +:+ arrows ns.*2 +:+ "NULL" +:+ endl)).
Proof.
  intros Hch Hfuel. unfold print_cout.
  by rewrite (print_chain _ _ _ _ ns Hch Hfuel).
Qed.

Lemma peek_chain this w l v ns :
  chain (heap w) (ptrHead this) ((l, v) :: ns) → peek this w = Normal v w.
Proof.
  destruct this as [p]. intros [Hp (next & Hl & _)]. simpl in Hp, Hl. subst p.
  by apply (peek_eq _ _ next).
Qed.

Lemma clean_empty stack fuel w :
  clean stack fuel (mkList None) w = Normal (mkList None) w.
Proof. by destruct fuel. Qed.

Lemma LinkedList_move_eq stack list w :
  LinkedList_move stack list w = Normal (mkList (ptrHead list), mkList None) w.
Proof. done. Qed.

(** Three calls of [pop] in a row are [pop_n] at 3. *)
Lemma pop_three {A} stack this (k : LinkedList → M T A) w :
  (let* l1 := pop stack this in
   let* l2 := pop stack l1 in
   let* l3 := pop stack l2 in
   k l3) w =
  bind (pop_n stack 3 this) k w.
Proof.
  simpl. unfold bind, ret.
  destruct (pop stack this w) as [l1 w1| |]; [|done|done].
  destruct (pop stack l1 w1) as [l2 w2| |]; [|done|done].
  by destruct (pop stack l2 w2).
Qed.

Lemma released_comm (a b : list loc) (h : gmap loc (Node T)) :
  released a (released b h) = released b (released a h).
Proof.
  apply map_eq. intros l. rewrite !lookup_released.
  by destruct (decide (l ∈ a)), (decide (l ∈ b)).
Qed.

Lemma released_twice (a b : list loc) (h : gmap loc (Node T)) :
  released a (released b h) = released (b ++ a) h.
Proof.
  rewrite released_comm. unfold released. by rewrite foldr_app.
Qed.
End Driver.

Lemma for_push_done stack fuel (i bound : int) (list : LinkedList)
    (w : World int) :
  (bound ≤ i)%Z → for_push stack fuel i bound list w = Normal list w.
Proof.
  intros Hle. destruct fuel; simpl;
    by rewrite (proj2 (Z.ltb_ge i bound) Hle).
Qed.

Lemma for_push_ten stack fuel (list : LinkedList) (w : World int) :
  for_push stack (10 + fuel) 0%Z 10%Z list w =
    push_all stack [0; 1; 2; 3; 4; 5; 6; 7; 8; 9]%Z list w.
Proof.
  cbn -[push]. do 10 (apply bind_ext_at; intros ? ?).
  by apply for_push_done.
Qed.

(** X11. The driver, started in any state, returns 0: the exception of
    [peek] on the moved-from list is caught, no other is thrown, one
    destructor frame is enough, every node the run allocates is freed
    again, so the heap at exit is the heap at entry, and what is written
    to [std::cout] is the transcript above. *)
Theorem main_returns (stack fuel : nat) (w : World int) :
  main (S stack) (10 + fuel) w =
    Normal 0%Z (mkWorld (heap w) (cout w +:+ main_transcript)).
Proof.
  unfold main.
  rewrite (bind_normal _ _ _ _ _ (write_cout_ok _ _)).
  set (w1 := mkWorld (heap w) (cout w +:+ "Allocating Nodes... ")).
  destruct (push_all_chain (S stack) [0; 1; 2; 3; 4; 5; 6; 7; 8; 9]%Z
              LinkedList_default w1 [])
    as (l1 & [h2 c2] & ms & Hrun & Hch & Hvs & Hcout & Hrel); [done|].
  rewrite app_nil_r in Hch. simpl in Hch, Hcout, Hrel. subst c2.
  rewrite <- (for_push_ten (S stack) fuel) in Hrun.
  rewrite (bind_normal _ _ _ _ _ Hrun). clear Hrun.
  change (ms.*2 = [9; 8; 7; 6; 5; 4; 3; 2; 1; 0]%Z) in Hvs.
  destruct ms as [|n9 [|n8 [|n7 [|n6 [|n5 [|n4 [|n3 [|n2 [|n1 [|n0 [|? ?]]]]]]]]]]];
    try discriminate Hvs.
  simpl in Hvs. injection Hvs as E9 E8 E7 E6 E5 E4 E3 E2 E1 E0.
  pose (front := [n9; n8; n7]).
  pose (middle := [n6; n5; n4]).
  pose (back := [n3; n2; n1; n0]).
  assert (Hfront : front.*2 = [9; 8; 7]%Z) by (simpl; congruence).
  assert (Hmiddle : middle.*2 = [6; 5; 4]%Z) by (simpl; congruence).
  assert (Hback : back.*2 = [3; 2; 1; 0]%Z) by (simpl; congruence).
  assert (Hall : (front ++ middle ++ back).*2 = [9; 8; 7; 6; 5; 4; 3; 2; 1; 0]%Z)
    by (simpl; congruence).
  clear E9 E8 E7 E6 E5 E4 E3 E2 E1 E0.
  change (chain h2 (ptrHead l1) (front ++ middle ++ back)) in Hch.
  change (released (front ++ middle ++ back).*1 h2 = heap w) in Hrel.
  assert (Hlf : length front = 3) by done.
  assert (Hlm : length middle = 3) by done.
  assert (Hlb : length back = 4) by done.
  clearbody front middle back.
  (* cout << list << endl; *)
  do 2 rewrite (bind_normal _ _ _ _ _ (write_cout_ok _ _)).
  cbn [heap cout].
  erewrite bind_normal; last first.
  { apply (print_cout_chain _ _ _ (front ++ middle ++ back)); [exact Hch|].
    rewrite !length_app. lia. }
  rewrite (bind_normal _ _ _ _ _ (write_cout_ok _ _)).
  cbn [heap cout].
  (* list.pop(); list.pop(); list.pop(); *)
  rewrite pop_three.
  match goal with |- bind _ _ ?wc = _ =>
    destruct (pop_n_chain stack l1 wc front (middle ++ back) Hch)
      as (l2 & Hpops & Hch2)
  end.
  rewrite (Hlf : @length (loc * int)%type front = 3) in Hpops. rewrite (bind_normal _ _ _ _ _ Hpops). clear Hpops.
  cbn [heap cout] in Hch2 |- *.
  rewrite (bind_normal _ _ _ _ _ (write_cout_ok _ _)).
  cbn [heap cout].
  erewrite bind_normal; last first.
  { apply (print_cout_chain _ _ _ (middle ++ back)); [exact Hch2|].
    rewrite !length_app. lia. }
  rewrite (bind_normal _ _ _ _ _ (write_cout_ok _ _)).
  cbn [heap cout].
  (* LinkedList<int> list2 = std::move(list); *)
  rewrite (bind_normal _ _ _ _ _ (LinkedList_move_eq _ _ _)).
  cbn [fst snd].
  rewrite (bind_normal _ _ _ _ _ (write_cout_ok _ _)).
  cbn [heap cout].
  erewrite bind_normal; last first.
  { apply (print_cout_chain _ _ _ []); [done | simpl; lia]. }
  do 2 rewrite (bind_normal _ _ _ _ _ (write_cout_ok _ _)).
  cbn [heap cout].
  erewrite bind_normal; last first.
  { apply (print_cout_chain _ _ _ (middle ++ back)); [exact Hch2|].
    rewrite !length_app. lia. }
  rewrite (bind_normal _ _ _ _ _ (write_cout_ok _ _)).
  cbn [heap cout].
  (* list2.pop(); list2.pop(); list2.pop(); *)
  rewrite pop_three.
  match goal with |- bind _ _ ?wc = _ =>
    destruct (pop_n_chain stack (mkList (ptrHead l2)) wc middle back Hch2)
      as (l3 & Hpops & Hch3)
  end.
  rewrite (Hlm : @length (loc * int)%type middle = 3) in Hpops. rewrite (bind_normal _ _ _ _ _ Hpops). clear Hpops.
  cbn [heap cout] in Hch3 |- *.
  rewrite (bind_normal _ _ _ _ _ (write_cout_ok _ _)).
  cbn [heap cout].
  erewrite bind_normal; last first.
  { apply (print_cout_chain _ _ _ back); [exact Hch3 | lia]. }
  do 2 rewrite (bind_normal _ _ _ _ _ (write_cout_ok _ _)).
  cbn [heap cout].
  (* list2.peek(), twice *)
  destruct back as [|[l v] back']; [done|].
  assert (v = 3%Z) as -> by (simpl in Hback; congruence).
  erewrite bind_normal; last first.
  { apply (peek_chain _ _ l _ back'). exact Hch3. }
  do 3 rewrite (bind_normal _ _ _ _ _ (write_cout_ok _ _)).
  cbn [heap cout].
  erewrite bind_normal; last first.
  { apply (peek_chain _ _ l _ back'). exact Hch3. }
  do 2 rewrite (bind_normal _ _ _ _ _ (write_cout_ok _ _)).
  cbn [heap cout].
  (* list.clean(); *)
  rewrite (bind_normal _ _ _ _ _ (clean_empty _ _ _)).
  (* try { ... list.peek() ... } catch (out_of_range& e) { ... } *)
  erewrite bind_normal; last first.
  { reflexivity. }
  rewrite (bind_normal _ _ _ _ _ (write_cout_ok _ _)).
  cbn [heap cout what].
  (* list2.clean(); *)
  erewrite bind_normal; last first.
  { apply (clean_chain _ _ _ _ ((l, 3%Z) :: back')); [exact Hch3 | lia]. }
  cbn [heap cout].
  erewrite bind_normal; last first.
  { apply (print_cout_chain _ _ _ []); [done | simpl; lia]. }
  rewrite (bind_normal _ _ _ _ _ (write_cout_ok _ _)).
  do 2 rewrite (bind_normal _ _ _ _ _ (LinkedList_destroy_empty _ _ _)).
  cbn [heap cout]. unfold ret. f_equal. f_equal.
  - rewrite !released_twice, <- Hrel. f_equal.
    by rewrite !fmap_app.
  - unfold int in *.
    rewrite !fmap_app, Hfront, Hmiddle, Hback, !string_app_assoc.
    by f_equal.
Qed.
